(** * The app-store persistence layer ([src/db.ts]) over a model of IndexedDB

    [db.ts] keeps every uploaded "app" in one IndexedDB object store and
    reaches it through the [idb] promise wrapper.  The development has two
    layers:

    - [Module Idb]: the part of the IndexedDB engine that [db.ts] calls
      (object stores with in-line keys and a key generator, indexes,
      [openDB] with its version change, [add], [delete],
      [getAllFromIndex]).  The engine is the browser's, not the
      repository's; the module follows the W3C Indexed Database API;
    - the functions of [db.ts] themselves ([initDB], [getDB], [addApp],
      [getAllApps], [getAppsByCategory], [deleteApp]) as state-passing
      functions over a [World]: the module-level variable [dbPromise] and the
      database kept by the browser.

    Scope of the model.  JavaScript numbers that are used as keys or sizes are
    integers ([Z]); a [Blob] is its byte content and media type; every
    operation is awaited before the next one starts, so a promise is observed
    either fulfilled or rejected; the two environment inputs (does the engine
    complete an open request, what does [new Date().toISOString()] return) are
    explicit arguments. *)

From stdpp Require Import gmap strings list fin_maps sorting.
From Stdlib Require Import ZArith Lia.

Local Open Scope Z_scope.

(** ** Results of engine requests *)

Inductive DOMException :=
  | ConstraintError
  | DataError
  | NotFoundError
  | VersionError
  | AbortError
  | UnknownError.

Inductive Result (A : Type) :=
  | Ok (a : A)
  | Err (e : DOMException).
Arguments Ok {A} a.
Arguments Err {A} e.

Global Instance Result_ret : MRet Result := λ A a, Ok a.
Global Instance Result_bind : MBind Result := λ A B f r,
  match r with
  | Ok a => f a
  | Err e => Err e
  end.

(** ** The record type of [db.ts] *)

Record Blob := mkBlob {
  blob_bytes : list Byte.byte;
  blob_type : string
}.

(** [interface App].  Optional properties are [option]s; [category] is the
    string the object carries at run time (the union of literals in the
    interface is erased by the compiler, see [App_typed]). *)
Record App := mkApp {
  id : option Z;
  name : string;
  description : string;
  file : Blob;
  fileName : string;
  fileType : string;
  fileSize : Z;
  uploadDate : string;
  ownerId : string;
  category : string;
  icon : option Blob;
  iconType : option string
}.

Definition CATEGORIES : list string :=
  ["Games"; "Tools"; "Music"; "Images"; "Videos"; "Other"].

(** What the static type [App] promises about [category]. *)
Definition App_typed (app : App) : Prop := category app ∈ CATEGORIES.

(** [{ ...app, uploadDate: d }] *)
Definition with_uploadDate (d : string) (app : App) : App :=
  mkApp (id app) (name app) (description app) (file app) (fileName app)
        (fileType app) (fileSize app) d (ownerId app) (category app)
        (icon app) (iconType app).

(** The engine writing a key into the value at key path ['id']. *)
Definition with_id (k : Z) (app : App) : App :=
  mkApp (Some k) (name app) (description app) (file app) (fileName app)
        (fileType app) (fileSize app) (uploadDate app) (ownerId app)
        (category app) (icon app) (iconType app).

(** Equality of two records up to the two properties the store sets. *)
Definition same_payload (a b : App) : Prop :=
  name a = name b ∧ description a = description b ∧ file a = file b ∧
  fileName a = fileName b ∧ fileType a = fileType b ∧
  fileSize a = fileSize b ∧ ownerId a = ownerId b ∧
  category a = category b ∧ icon a = icon b ∧ iconType a = iconType b.

(** ** The IndexedDB engine *)

Module Idb.

(** Keys: numbers sort before strings; strings sort by code unit. *)
Inductive IDBKey :=
  | KNum (n : Z)
  | KStr (s : string).

Definition key_le (a b : IDBKey) : Prop :=
  match a, b with
  | KNum x, KNum y => x ≤ y
  | KNum _, KStr _ => True
  | KStr _, KNum _ => False
  | KStr s, KStr t => String.le s t
  end.

Global Instance key_le_dec : RelDecision key_le.
Proof. intros [x|s] [y|t]; simpl; apply _. Defined.

Global Instance IDBKey_eq_dec : EqDecision IDBKey.
Proof. solve_decision. Defined.

(** Evaluating a key path on a stored value.  [None] is the algorithm's
    failure: the property is missing or does not hold a valid key (a [Blob]
    is not one). *)
Definition eval_keyPath (keyPath : string) (v : App) : option IDBKey :=
  if String.eqb keyPath "id" then KNum <$> id v
  else if String.eqb keyPath "name" then Some (KStr (name v))
  else if String.eqb keyPath "description" then Some (KStr (description v))
  else if String.eqb keyPath "fileName" then Some (KStr (fileName v))
  else if String.eqb keyPath "fileType" then Some (KStr (fileType v))
  else if String.eqb keyPath "fileSize" then Some (KNum (fileSize v))
  else if String.eqb keyPath "uploadDate" then Some (KStr (uploadDate v))
  else if String.eqb keyPath "ownerId" then Some (KStr (ownerId v))
  else if String.eqb keyPath "category" then Some (KStr (category v))
  else if String.eqb keyPath "iconType" then KStr <$> iconType v
  else None.

(** An object store whose key path is ['id'] (the only kind [db.ts]
    creates): records by primary key, the key generator's current number,
    and the declared indexes (name to key path). *)
Record IDBObjectStore := mkStore {
  store_keyPath : string;
  store_autoIncrement : bool;
  store_indexes : gmap string string;
  store_keygen : Z;
  store_records : gmap Z App
}.

(** A database as the browser keeps it.  Version [0] with no object store
    is a database that was never created. *)
Record IDBDatabase := mkDatabase {
  db_version : Z;
  db_stores : gmap string IDBObjectStore
}.

Definition no_database : IDBDatabase := mkDatabase 0 ∅.

Definition objectStoreNames_contains (db : IDBDatabase) (n : string) : bool :=
  bool_decide (is_Some (db_stores db !! n)).

Definition indexNames_contains (st : IDBObjectStore) (n : string) : bool :=
  bool_decide (is_Some (store_indexes st !! n)).

Definition objectStore (db : IDBDatabase) (n : string) : Result IDBObjectStore :=
  match db_stores db !! n with
  | Some st => Ok st
  | None => Err NotFoundError
  end.

Definition put_store (n : string) (st : IDBObjectStore) (db : IDBDatabase)
  : IDBDatabase :=
  mkDatabase (db_version db) (<[n := st]> (db_stores db)).

(** [database.createObjectStore(name, { keyPath, autoIncrement })] *)
Definition createObjectStore (n keyPath : string) (autoIncrement : bool)
    (db : IDBDatabase) : Result IDBDatabase :=
  if objectStoreNames_contains db n then Err ConstraintError
  else Ok (put_store n (mkStore keyPath autoIncrement ∅ 1 ∅) db).

(** [store.createIndex(name, keyPath)] on the store called [sn].  The index
    content is derived from the records (see [index_records]), so creating
    an index over existing data needs no migration. *)
Definition createIndex (sn n keyPath : string) (db : IDBDatabase)
  : Result IDBDatabase :=
  st ← objectStore db sn;
  if indexNames_contains st n then Err ConstraintError
  else Ok (put_store sn
             (mkStore (store_keyPath st) (store_autoIncrement st)
                      (<[n := keyPath]> (store_indexes st))
                      (store_keygen st) (store_records st)) db).

(** *** Storing a record *)

(** The largest number a key generator hands out. *)
Definition MAX_GENERATED : Z := 2 ^ 53.
Global Arguments MAX_GENERATED : simpl never.

(** "Possibly update the key generator" for an explicit numeric key. *)
Definition bump_keygen (k current : Z) : Z :=
  let v := Z.min k MAX_GENERATED in
  if decide (current ≤ v) then v + 1 else current.

(** [store.add(value)] on a store with in-line keys at ['id'].  A value that
    carries an [id] keeps it; otherwise the generator supplies the key and
    the engine writes it into the stored value.  An existing key is a
    [ConstraintError]; a failed request leaves the store as it was.
    Identifiers are integers here, and a write that the engine accepted is
    carried out: a request that fails for lack of room, and an [id] that
    is no valid key, are outside this model. *)
Definition store_add (value : App) (st : IDBObjectStore)
  : Result (Z * IDBObjectStore) :=
  '(k, g) ← match id value with
            | Some k =>
                Ok (k, if store_autoIncrement st
                       then bump_keygen k (store_keygen st)
                       else store_keygen st)
            | None =>
                if negb (store_autoIncrement st) then Err DataError
                else if decide (MAX_GENERATED < store_keygen st)
                then Err ConstraintError
                else Ok (store_keygen st, store_keygen st + 1)
            end;
  if decide (is_Some (store_records st !! k)) then Err ConstraintError
  else Ok (k, mkStore (store_keyPath st) (store_autoIncrement st)
                      (store_indexes st) g
                      (<[k := with_id k value]> (store_records st))).

(** [store.delete(key)]: removing an absent key is not an error. *)
Definition store_delete (k : Z) (st : IDBObjectStore) : IDBObjectStore :=
  mkStore (store_keyPath st) (store_autoIncrement st) (store_indexes st)
          (store_keygen st) (delete k (store_records st)).

(** *** Indexes *)

(** An index record: the index key and the primary key of the record it
    refers to.  Index records are ordered by index key, then primary key. *)
Definition entry_le (a b : IDBKey * Z) : Prop :=
  key_le a.1 b.1 ∧ (key_le b.1 a.1 → a.2 ≤ b.2).

Global Instance entry_le_dec : RelDecision entry_le.
Proof. intros a b. unfold entry_le. apply _. Defined.

Definition index_entry (keyPath : string) (r : Z * App) : option (IDBKey * Z) :=
  k ← eval_keyPath keyPath r.2; Some (k, r.1).

(** The records of an index with the given key path: one per stored value
    on which the key path evaluates to a key. *)
Definition index_records (keyPath : string) (recs : gmap Z App)
  : list (IDBKey * Z) :=
  merge_sort entry_le (omap (index_entry keyPath) (map_to_list recs)).

(** A query is a single key or absent (every record is in range). *)
Definition in_range (query : option IDBKey) (e : IDBKey * Z) : Prop :=
  match query with
  | None => True
  | Some q => e.1 = q
  end.

Global Instance in_range_dec query e : Decision (in_range query e).
Proof. destruct query; simpl; apply _. Defined.

(** [index.getAll(query)]: the referenced values, in index order. *)
Definition index_getAll (keyPath : string) (query : option IDBKey)
    (recs : gmap Z App) : list App :=
  omap (λ e, recs !! e.2) (filter (in_range query) (index_records keyPath recs)).

(** What [index_getAll] retains of one stored record. *)
Definition index_select (keyPath : string) (query : option IDBKey)
    (r : Z * App) : option App :=
  k ← eval_keyPath keyPath r.2;
  if decide (in_range query (k, r.1)) then Some r.2 else None.

(** *** The one-shot helpers of the [idb] wrapper *)

Definition db_add (sn : string) (value : App) (db : IDBDatabase)
  : Result (Z * IDBDatabase) :=
  st ← objectStore db sn;
  '(k, st') ← store_add value st;
  Ok (k, put_store sn st' db).

Definition db_delete (sn : string) (k : Z) (db : IDBDatabase)
  : Result IDBDatabase :=
  st ← objectStore db sn;
  Ok (put_store sn (store_delete k st) db).

Definition db_getAllFromIndex (sn n : string) (query : option IDBKey)
    (db : IDBDatabase) : Result (list App) :=
  st ← objectStore db sn;
  match store_indexes st !! n with
  | Some keyPath => Ok (index_getAll keyPath query (store_records st))
  | None => Err NotFoundError
  end.

(** *** Opening a database *)

(** [openDB(name, version, { upgrade })].  [engine_ok] tells whether the
    engine completes the request at all (it may be blocked, out of quota,
    ...).  A stored version above the requested one is a [VersionError]; a
    stored version below it runs the [upgrade] callback on the database and
    the stored version, and an exception in the callback aborts the
    version change.  A failed open leaves the database as it was. *)
Definition openDB (engine_ok : bool) (version : Z)
    (upgrade : IDBDatabase → Z → Result IDBDatabase) (db : IDBDatabase)
  : Result IDBDatabase :=
  if negb engine_ok then Err UnknownError
  else if decide (version < db_version db) then Err VersionError
  else if decide (db_version db < version) then
    match upgrade db (db_version db) with
    | Ok db' => Ok (mkDatabase version (db_stores db'))
    | Err _ => Err AbortError
    end
  else Ok db.

End Idb.
Export Idb.

(** ** [db.ts] *)

Definition dbVersion : Z := 5.

(** The [upgrade] callback that [initDB] hands to [openDB]; it runs inside
    the version-change transaction. *)
Definition upgrade (database : IDBDatabase) (oldVersion : Z)
  : Result IDBDatabase :=
  database ←
    (if negb (objectStoreNames_contains database "apps") then
       database ← createObjectStore "apps" "id" true database;
       database ← createIndex "apps" "uploadDate" "uploadDate" database;
       database ← createIndex "apps" "ownerId" "ownerId" database;
       createIndex "apps" "category" "category" database
     else Ok database);
  if bool_decide (oldVersion < 5) && objectStoreNames_contains database "apps"
  then
    store ← objectStore database "apps";
    if negb (indexNames_contains store "category")
    then createIndex "apps" "category" "category" database
    else Ok database
  else Ok database.

(** A promise as an awaiting caller sees it. *)
Inductive Promise :=
  | Fulfilled
  | Rejected (e : DOMException).

(** The state [db.ts] runs in: its variable [dbPromise] and the database
    [AppStoreDB] of the origin. *)
Record World := mkWorld {
  dbPromise : option Promise;
  database : IDBDatabase
}.

Definition initial_world : World := mkWorld None no_database.

Definition set_dbPromise (p : option Promise) (w : World) : World :=
  mkWorld p (database w).

Definition set_database (db : IDBDatabase) (w : World) : World :=
  mkWorld (dbPromise w) db.

(** [initDB]: open once, cache the promise whatever its outcome. *)
Definition initDB (engine_ok : bool) (w : World) : Promise * World :=
  match dbPromise w with
  | Some p => (p, w)
  | None =>
      match openDB engine_ok dbVersion upgrade (database w) with
      | Ok db' => (Fulfilled, mkWorld (Some Fulfilled) db')
      | Err e => (Rejected e, mkWorld (Some (Rejected e)) (database w))
      end
  end.

(** The callbacks handed to [openDB]: [blocked] only logs a warning,
    [blocking] and [terminated] forget the cached promise.  [blocking] does
    not close the connection, so the engine answers the page's next open
    request only once the request of the other party is through; when and
    on which database is the engine's matter. *)
Definition blocked (w : World) : World := w.
Definition blocking (w : World) : World := set_dbPromise None w.
Definition terminated (w : World) : World := set_dbPromise None w.

(** [getDB]: await [initDB]; on rejection forget the cached promise and
    rethrow. *)
Definition getDB (engine_ok : bool) (w : World) : Result unit * World :=
  let '(p, w) := initDB engine_ok w in
  match p with
  | Fulfilled => (Ok (), w)
  | Rejected e => (Err e, set_dbPromise None w)
  end.

(** [addApp]; [now] is the value of [new Date().toISOString()]. *)
Definition addApp (engine_ok : bool) (now : string) (app : App) (w : World)
  : Result Z * World :=
  let '(r, w) := getDB engine_ok w in
  match r with
  | Err e => (Err e, w)
  | Ok _ =>
      match db_add "apps" (with_uploadDate now app) (database w) with
      | Ok (k, db') => (Ok k, set_database db' w)
      | Err e => (Err e, w)
      end
  end.

Definition getAllApps (engine_ok : bool) (w : World)
  : Result (list App) * World :=
  let '(r, w) := getDB engine_ok w in
  match r with
  | Err e => (Err e, w)
  | Ok _ => (db_getAllFromIndex "apps" "uploadDate" None (database w), w)
  end.

Definition getAppsByCategory (engine_ok : bool) (category : string) (w : World)
  : Result (list App) * World :=
  let '(r, w) := getDB engine_ok w in
  match r with
  | Err e => (Err e, w)
  | Ok _ =>
      (db_getAllFromIndex "apps" "category" (Some (KStr category)) (database w), w)
  end.

Definition deleteApp (engine_ok : bool) (k : Z) (w : World)
  : Result unit * World :=
  let '(r, w) := getDB engine_ok w in
  match r with
  | Err e => (Err e, w)
  | Ok _ =>
      match db_delete "apps" k (database w) with
      | Ok db' => (Ok (), set_database db' w)
      | Err e => (Err e, w)
      end
  end.


(** ** Running the store *)

(** The content of the object store ['apps'] (nothing before the database
    is created) and the current number of its key generator. *)
Definition stored (w : World) : gmap Z App :=
  match db_stores (database w) !! "apps" with
  | Some st => store_records st
  | None => ∅
  end.

Definition keygen (w : World) : Z :=
  match db_stores (database w) !! "apps" with
  | Some st => store_keygen st
  | None => 1
  end.

(** What can happen to a [World]: a call of one of the four operations
    that the components use, or the engine firing one of the callbacks. *)
Inductive Call :=
  | CallAddApp (now : string) (app : App)
  | CallGetAllApps
  | CallGetAppsByCategory (category : string)
  | CallDeleteApp (k : Z)
  | OnBlocked
  | OnBlocking
  | OnTerminated.

Definition exec (engine_ok : bool) (c : Call) (w : World) : World :=
  match c with
  | CallAddApp now app => (addApp engine_ok now app w).2
  | CallGetAllApps => (getAllApps engine_ok w).2
  | CallGetAppsByCategory c => (getAppsByCategory engine_ok c w).2
  | CallDeleteApp k => (deleteApp engine_ok k w).2
  | OnBlocked => blocked w
  | OnBlocking => blocking w
  | OnTerminated => terminated w
  end.

(** What a call hands back to its caller: the value the promise resolves
    to, or the exception it rejects with. *)
Inductive Outcome :=
  | OutId (k : Z)
  | OutApps (l : list App)
  | OutVoid
  | OutErr (x : DOMException).

Definition outcome_of {A} (f : A → Outcome) (r : Result A) : Outcome :=
  match r with
  | Ok a => f a
  | Err x => OutErr x
  end.

Definition call (engine_ok : bool) (c : Call) (w : World) : Outcome * World :=
  match c with
  | CallAddApp now app =>
      let '(r, w) := addApp engine_ok now app w in (outcome_of OutId r, w)
  | CallGetAllApps =>
      let '(r, w) := getAllApps engine_ok w in (outcome_of OutApps r, w)
  | CallGetAppsByCategory c =>
      let '(r, w) := getAppsByCategory engine_ok c w in (outcome_of OutApps r, w)
  | CallDeleteApp k =>
      let '(r, w) := deleteApp engine_ok k w in (outcome_of (λ _, OutVoid) r, w)
  | OnBlocked => (OutVoid, blocked w)
  | OnBlocking => (OutVoid, blocking w)
  | OnTerminated => (OutVoid, terminated w)
  end.

Definition is_operation (c : Call) : Prop :=
  match c with
  | CallAddApp _ _ | CallGetAllApps | CallGetAppsByCategory _
  | CallDeleteApp _ => True
  | OnBlocked | OnBlocking | OnTerminated => False
  end.

Global Instance is_operation_dec c : Decision (is_operation c).
Proof. destruct c; simpl; apply _. Defined.

Definition admits (P : App → Prop) (c : Call) : Prop :=
  match c with
  | CallAddApp _ app => P app
  | _ => True
  end.

(** The worlds a page reaches from a browser that never saw the database,
    when every record handed to [addApp] satisfies [P]. *)
Inductive reachable (P : App → Prop) : World → Prop :=
  | reachable_initial : reachable P initial_world
  | reachable_exec e c w :
      reachable P w → admits P c → reachable P (exec e c w).

Definition any_app : App → Prop := λ _, True.

(** A trace is a list of calls, each with the engine's answer to an open
    request made during it. *)
Fixpoint run (calls : list (bool * Call)) (w : World) : World :=
  match calls with
  | [] => w
  | (e, c) :: calls => run calls (exec e c w)
  end.

(** The identifiers the key generator handed out along a trace, in the
    order of the calls: the results of the successful [addApp] calls whose
    record carried no [id]. *)
Fixpoint generated_ids (calls : list (bool * Call)) (w : World) : list Z :=
  match calls with
  | [] => []
  | (e, c) :: calls =>
      match c with
      | CallAddApp now app =>
          match id app, (addApp e now app w).1 with
          | None, Ok k => [k]
          | _, _ => []
          end
      | _ => []
      end ++ generated_ids calls (exec e c w)
  end.

(** The records in the order they were inserted: a successful [addApp]
    appends what it stored, a successful [deleteApp] drops its record. *)
Fixpoint insertion_log (calls : list (bool * Call)) (w : World)
    (log : list App) : list App :=
  match calls with
  | [] => log
  | (e, c) :: calls =>
      insertion_log calls (exec e c w)
        match c with
        | CallAddApp now app =>
            match (addApp e now app w).1 with
            | Ok k => log ++ [with_id k (with_uploadDate now app)]
            | Err _ => log
            end
        | CallDeleteApp k =>
            match (deleteApp e k w).1 with
            | Ok _ => filter (λ a, id a ≠ Some k) log
            | Err _ => log
            end
        | _ => log
        end
  end.

(** The clock readings of a trace and the records it hands to [addApp]. *)
Definition clock_readings (calls : list (bool * Call)) : list string :=
  omap (λ ec, match ec.2 with CallAddApp now _ => Some now | _ => None end) calls.

Definition added_apps (calls : list (bool * Call)) : list App :=
  omap (λ ec, match ec.2 with CallAddApp _ app => Some app | _ => None end) calls.

(** Order of [getAllApps]: by [uploadDate], equal dates by [id]. *)
Definition upload_order (a b : App) : Prop :=
  (uploadDate a ≤ uploadDate b)%string ∧
  (uploadDate a = uploadDate b →
   ∃ i j, id a = Some i ∧ id b = Some j ∧ i ≤ j).

(** ** Sample data *)

Definition sample_blob : Blob :=
  mkBlob [Byte.x50; Byte.x4b; Byte.x03; Byte.x04] "application/zip".

(** A record as the upload form builds it: no [id], the form's own clock
    reading in [uploadDate]. *)
Definition sample_app (n c : string) : App :=
  mkApp None n "a sample" sample_blob "sample.zip" "application/zip" 4
        "2024-03-10T11:00:00.000Z" "user1" c None None.

(** The same record carrying an [id], as [getAllApps] returns it. *)
Definition sample_app_id (k : Z) (n c : string) : App :=
  with_id k (sample_app n c).

Definition sample_trace : list (bool * Call) :=
  [ (true, CallAddApp "2024-03-10T12:00:00.000Z" (sample_app "Chess" "Games"));
    (true, CallAddApp "2024-03-10T12:00:00.000Z" (sample_app "Calculator" "Tools"));
    (true, CallAddApp "2024-03-10T12:00:01.500Z" (sample_app "Go" "Games"));
    (true, CallDeleteApp 2);
    (false, OnTerminated);
    (true, CallAddApp "2024-03-10T12:00:02.000Z" (sample_app "Notes" "Tools")) ].

Definition sample_world : World := run sample_trace initial_world.

(** Two records that bring their own [id], stamped with one clock reading. *)
Definition tie_trace : list (bool * Call) :=
  [ (true, CallAddApp "2024-03-10T12:00:00.000Z" (sample_app_id 5 "Chess" "Games"));
    (true, CallAddApp "2024-03-10T12:00:00.000Z" (sample_app_id 3 "Go" "Games")) ].

(** Two records, the second stamped after the clock was set back. *)
Definition clock_back_trace : list (bool * Call) :=
  [ (true, CallAddApp "2024-03-10T12:00:00.000Z" (sample_app "Chess" "Games"));
    (true, CallAddApp "2024-03-10T11:59:58.000Z" (sample_app "Go" "Games")) ].

(** ** The schema [initDB] creates, and the invariant of the store *)

Definition apps_indexes : gmap string string :=
  {[ "uploadDate" := "uploadDate"; "ownerId" := "ownerId";
     "category" := "category" ]}.

Definition created_database : IDBDatabase :=
  mkDatabase 5 {[ "apps" := mkStore "id" true apps_indexes 1 ∅ ]}.

Record store_ok (st : IDBObjectStore) : Prop := {
  ok_keyPath : store_keyPath st = "id";
  ok_autoIncrement : store_autoIncrement st = true;
  ok_indexes : store_indexes st = apps_indexes;
  ok_keygen : 1 ≤ store_keygen st ≤ MAX_GENERATED + 1;
  ok_records : ∀ k v, store_records st !! k = Some v →
               id v = Some k ∧ Z.min k MAX_GENERATED < store_keygen st
}.

Definition world_ok (w : World) : Prop :=
  (database w = no_database ∧ dbPromise w = None) ∨
  (∃ st, database w = mkDatabase 5 {[ "apps" := st ]} ∧ store_ok st ∧
         (dbPromise w = None ∨ dbPromise w = Some Fulfilled)).

(** The store ['apps'] as the next operation finds it once the database is
    open, and the world with an open database holding a given store. *)
Definition the_store (w : World) : IDBObjectStore :=
  default (mkStore "id" true apps_indexes 1 ∅)
          (db_stores (database w) !! "apps").

Definition with_store (st : IDBObjectStore) : World :=
  mkWorld (Some Fulfilled) (mkDatabase 5 {[ "apps" := st ]}).

Definition opened (w : World) : World := with_store (the_store w).

(** The database is at hand: already open, or the engine will open it. *)
Definition connects (e : bool) (w : World) : bool :=
  match dbPromise w with
  | Some Fulfilled => true
  | Some (Rejected _) => false
  | None => e
  end.

(** Order of [getAppsByCategory]: by [id]. *)
Definition id_order (a b : App) : Prop :=
  ∃ i j, id a = Some i ∧ id b = Some j ∧ i < j.

(** ** The components ([App.tsx], [AppList.tsx], [AppUpload], previews)

    A component is its state (the [useState] cells that matter to what the
    handlers do with the store) and its handlers, each run to completion.
    A handler returns the toasts it raises, the state after its updates and
    the world.  Presentation-only cells ([dragActive], [iconPreview], the
    players' cells) and the DOM effects of [handleDownload] are left out.
    [getUserId] comes from a module outside this repository's sources; its
    value is the argument [userId]. *)

(** [error.message] is the engine's text; a message is kept symbolic. *)
Inductive Message :=
  | Text (s : string)
  | MessageOf (x : DOMException)
  | Prefixed (s : string) (x : DOMException).

Inductive Toast :=
  | ToastError (m : Message)
  | ToastSuccess (s : string).

(** A [File] is a [Blob] with a name; [file.type], [file.size]. *)
Record File := mkFile {
  file_blob : Blob;
  file_name : string
}.

Definition file_type (f : File) : string := blob_type (file_blob f).
Definition file_size (f : File) : Z :=
  Z.of_nat (length (blob_bytes (file_blob f))).

(** [s.startsWith(p)] *)
Definition startsWith (s p : string) : bool := String.prefix p s.

Module AppList.

Record State := mkState {
  selectedCategory : string;
  apps : list App;
  previewApp : option App;
  loading : bool;
  error : option Message
}.

Definition initial : State := mkState "All" [] None false None.

(** [loadApps]: nothing while a load is under way; otherwise the full
    listing for ['All'] and the category listing for anything else,
    reversed for display; a failure only sets [error] and raises a toast.
    [loading] is false again at the end either way. *)
Definition loadApps (engine_ok : bool) (s : State) (w : World)
  : list Toast * State * World :=
  if loading s then ([], s, w)
  else
    let '(r, w) :=
      if String.eqb (selectedCategory s) "All" then getAllApps engine_ok w
      else getAppsByCategory engine_ok (selectedCategory s) w in
    match r with
    | Ok loadedApps =>
        ([], mkState (selectedCategory s) (reverse loadedApps) (previewApp s)
                     false None, w)
    | Err x =>
        ([ToastError (MessageOf x)],
         mkState (selectedCategory s) (apps s) (previewApp s) false
                 (Some (MessageOf x)), w)
    end.

(** [!app.id]: the property is missing or zero. *)
Definition no_id (app : App) : bool :=
  match id app with
  | None => true
  | Some k => bool_decide (k = 0)
  end.

(** [handleDelete]; [confirmed] is the answer to [confirm(...)], asked
    only when the record has an [id]. *)
Definition handleDelete (engine_ok : bool) (confirmed : bool) (app : App)
    (s : State) (w : World) : list Toast * State * World :=
  match id app with
  | None => ([], s, w)
  | Some k =>
      if bool_decide (k = 0) then ([], s, w)
      else if negb confirmed then ([], s, w)
      else
        match deleteApp engine_ok k w with
        | (Ok _, w) =>
            let '(toasts, s, w) := loadApps engine_ok s w in
            (toasts ++ [ToastSuccess "App deleted successfully"], s, w)
        | (Err x, w) => ([ToastError (MessageOf x)], s, w)
        end
  end.

(** The test of [handlePreview], which is also [canPreview] of the tile. *)
Definition canPreview (app : App) : bool :=
  String.eqb (fileType app) "text/html"
  || startsWith (fileType app) "audio/"
  || startsWith (fileType app) "video/".

Definition handlePreview (app : App) (s : State) : State :=
  if canPreview app
  then mkState (selectedCategory s) (apps s) (Some app) (loading s) (error s)
  else s.

Definition closePreview (s : State) : State :=
  mkState (selectedCategory s) (apps s) None (loading s) (error s).

Definition setSelectedCategory (c : string) (s : State) : State :=
  mkState c (apps s) (previewApp s) (loading s) (error s).

(** The delete button of a tile is rendered for the owner only. *)
Definition canDelete (currentUserId : string) (app : App) : bool :=
  bool_decide (ownerId app = currentUserId).

Inductive FileTypeIcon := MusicalNoteIcon | VideoCameraIcon | DocumentIcon.

Definition getFileTypeIcon (fileType : string) : FileTypeIcon :=
  if startsWith fileType "audio/" then MusicalNoteIcon
  else if startsWith fileType "video/" then VideoCameraIcon
  else DocumentIcon.

(** What the component shows below the category buttons. *)
Inductive Body :=
  | BodyLoading
  | BodyError (m : Message)
  | BodyEmpty
  | BodyGrid (tiles : list App).

Definition body (s : State) : Body :=
  if loading s && bool_decide (apps s = []) then BodyLoading
  else match error s with
       | Some m => BodyError m
       | None => if bool_decide (apps s = []) then BodyEmpty
                 else BodyGrid (apps s)
       end.

End AppList.

(** The preview that is on screen: [AppList] picks the component,
    [MediaPreview] picks the player (when it has no error to show). *)
Inductive Preview :=
  | HTMLPreview (app : App)
  | AudioPlayer (app : App)
  | VideoPlayer (app : App).

Definition MediaPreview (app : App) : Preview :=
  if startsWith (fileType app) "audio/" then AudioPlayer app
  else VideoPlayer app.

Definition preview (s : AppList.State) : option Preview :=
  match AppList.previewApp s with
  | None => None
  | Some app =>
      Some (if String.eqb (fileType app) "text/html" then HTMLPreview app
            else MediaPreview app)
  end.

Module AppUpload.

Record State := mkState {
  appName : string;
  description : string;
  category : string;
  file : option File;
  icon : option File;
  loading : bool;
  uploadProgress : Z
}.

(** [CATEGORIES[0]] *)
Definition firstCategory : string := hd "" CATEGORIES.

Definition initial : State := mkState "" "" firstCategory None None false 0.

Definition setAppName (v : string) (s : State) : State :=
  mkState v (description s) (category s) (file s) (icon s) (loading s)
          (uploadProgress s).

Definition setDescription (v : string) (s : State) : State :=
  mkState (appName s) v (category s) (file s) (icon s) (loading s)
          (uploadProgress s).

Definition setCategory (v : string) (s : State) : State :=
  mkState (appName s) (description s) v (file s) (icon s) (loading s)
          (uploadProgress s).

Definition setFile (f : option File) (s : State) : State :=
  mkState (appName s) (description s) (category s) f (icon s) (loading s)
          (uploadProgress s).

Definition setIcon (f : option File) (s : State) : State :=
  mkState (appName s) (description s) (category s) (file s) f (loading s)
          (uploadProgress s).

Definition setLoading (v : bool) (s : State) : State :=
  mkState (appName s) (description s) (category s) (file s) (icon s) v
          (uploadProgress s).

Definition setUploadProgress (v : Z) (s : State) : State :=
  mkState (appName s) (description s) (category s) (file s) (icon s)
          (loading s) v.

(** The file input: [setFile(e.target.files?.[0] || null)]. *)
Definition fileInputChange (files : list File) (s : State) : State :=
  setFile (head files) s.

(** [handleDrop]: only a drop that carries a file changes [file]. *)
Definition handleDrop (files : list File) (s : State) : State :=
  match head files with
  | Some f => setFile (Some f) s
  | None => s
  end.

(** [handleIconChange]: an icon must have an image type. *)
Definition handleIconChange (files : list File) (s : State)
  : list Toast * State :=
  match head files with
  | Some selectedIcon =>
      if startsWith (file_type selectedIcon) "image/"
      then ([], setIcon (Some selectedIcon) s)
      else ([ToastError (Text "Please select an image file for the icon")], s)
  | None => ([], s)
  end.

(** [resetForm] *)
Definition resetForm (s : State) : State :=
  mkState "" "" firstCategory None None (loading s) 0.

(** One tick of the simulated progress. *)
Definition progressTick (prev : Z) : Z :=
  if decide (90 ≤ prev) then prev else prev + 10.

(** The record [handleSubmit] hands to [addApp]. *)
Definition record (now userId : string) (f : File) (s : State) : App :=
  mkApp None (appName s) (description s) (file_blob f) (file_name f)
        (file_type f) (file_size f) now userId (category s)
        (file_blob <$> icon s) (file_type <$> icon s).

(** [handleSubmit].  [nowForm] is the form's own clock reading, [nowStore]
    the one [addApp] takes; [ticks] is the number of progress ticks that
    fire while the store works.  Without a file nothing happens but a
    toast.  Otherwise the progress starts at 0 and ticks while [addApp]
    runs; success shows 100 and resets the form, failure keeps the form;
    [loading] is false again at the end either way. *)
Definition handleSubmit (engine_ok : bool) (nowForm nowStore userId : string)
    (ticks : nat) (s : State) (w : World) : list Toast * State * World :=
  match file s with
  | None => ([ToastError (Text "Please select a file to upload")], s, w)
  | Some f =>
      match addApp engine_ok nowStore (record nowForm userId f s) w with
      | (Ok _, w) =>
          ([ToastSuccess "App uploaded successfully!"],
           setLoading false (resetForm (setUploadProgress 100 s)), w)
      | (Err x, w) =>
          ([ToastError (Prefixed "Upload failed: " x)],
           setLoading false
             (setUploadProgress (Nat.iter ticks progressTick 0) s), w)
      end
  end.

End AppUpload.

(** [App.tsx]: one of the two components is mounted; switching mounts the
    other one afresh. *)
Record Page := mkPage {
  showUpload : bool;
  uploadForm : AppUpload.State;
  appList : AppList.State;
  world : World
}.

Definition initial_page (w : World) : Page :=
  mkPage false AppUpload.initial AppList.initial w.

(** What the user, the timers and the engine do to a page. *)
Inductive UiEvent :=
  | ToggleUpload
  | TypeAppName (v : string)
  | TypeDescription (v : string)
  | SelectCategory (v : string)
  | ChooseFile (files : list File)
  | DropFile (files : list File)
  | ChooseIcon (files : list File)
  | Submit (engine_ok : bool) (nowForm nowStore : string) (ticks : nat)
  | Load (engine_ok : bool)
  | SelectFilter (c : string)
  | ClickPreview (tile : nat)
  | ClosePreview
  | ClickDelete (engine_ok : bool) (confirmed : bool) (tile : nat)
  | Engine (c : Call).

Definition on_upload (f : AppUpload.State → AppUpload.State) (p : Page) : Page :=
  if showUpload p
  then mkPage true (f (uploadForm p)) (appList p) (world p)
  else p.

Definition on_list (f : AppList.State → AppList.State) (p : Page) : Page :=
  if showUpload p then p
  else mkPage false (uploadForm p) (f (appList p)) (world p).

(** One event.  [userId] is what [getUserId()] returns, taken to be the
    same at every call.  The select offers the six categories, so
    [SelectCategory] with another value does not occur; tiles are
    addressed by position,
    and a tile has a preview button when [canPreview] holds and a delete
    button when [canDelete] holds. *)
Definition ui_step (userId : string) (ev : UiEvent) (p : Page) : Page :=
  match ev with
  | ToggleUpload =>
      mkPage (negb (showUpload p)) AppUpload.initial AppList.initial (world p)
  | TypeAppName v => on_upload (AppUpload.setAppName v) p
  | TypeDescription v => on_upload (AppUpload.setDescription v) p
  | SelectCategory v =>
      if bool_decide (v ∈ CATEGORIES)
      then on_upload (AppUpload.setCategory v) p else p
  | ChooseFile files => on_upload (AppUpload.fileInputChange files) p
  | DropFile files => on_upload (AppUpload.handleDrop files) p
  | ChooseIcon files =>
      on_upload (λ s, (AppUpload.handleIconChange files s).2) p
  | Submit e nowForm nowStore ticks =>
      if showUpload p then
        let '(_, s, w) :=
          AppUpload.handleSubmit e nowForm nowStore userId ticks
            (uploadForm p) (world p) in
        mkPage true s (appList p) w
      else p
  | Load e =>
      if showUpload p then p
      else let '(_, s, w) := AppList.loadApps e (appList p) (world p) in
           mkPage false (uploadForm p) s w
  | SelectFilter c => on_list (AppList.setSelectedCategory c) p
  | ClickPreview tile =>
      match AppList.apps (appList p) !! tile with
      | Some app => on_list (AppList.handlePreview app) p
      | None => p
      end
  | ClosePreview => on_list AppList.closePreview p
  | ClickDelete e confirmed tile =>
      if showUpload p then p
      else match AppList.apps (appList p) !! tile with
           | Some app =>
               if AppList.canDelete userId app then
                 let '(_, s, w) :=
                   AppList.handleDelete e confirmed app (appList p) (world p) in
                 mkPage false (uploadForm p) s w
               else p
           | None => p
           end
  | Engine c =>
      if bool_decide (is_operation c) then p
      else mkPage (showUpload p) (uploadForm p) (appList p)
                  (exec true c (world p))
  end.

Fixpoint ui_run (userId : string) (evs : list UiEvent) (p : Page) : Page :=
  match evs with
  | [] => p
  | ev :: evs => ui_run userId evs (ui_step userId ev p)
  end.

(** The store calls that the events of a page issue, in order. *)
Definition ui_calls_step (userId : string) (ev : UiEvent) (p : Page)
  : list (bool * Call) :=
  match ev with
  | Submit e nowForm nowStore ticks =>
      if showUpload p then
        match AppUpload.file (uploadForm p) with
        | Some f =>
            [(e, CallAddApp nowStore
                   (AppUpload.record nowForm userId f (uploadForm p)))]
        | None => []
        end
      else []
  | Load e =>
      if showUpload p || AppList.loading (appList p) then []
      else if String.eqb (AppList.selectedCategory (appList p)) "All"
      then [(e, CallGetAllApps)]
      else [(e, CallGetAppsByCategory (AppList.selectedCategory (appList p)))]
  | ClickDelete e confirmed tile =>
      if showUpload p then []
      else match AppList.apps (appList p) !! tile with
           | Some app =>
               if AppList.canDelete userId app && negb (AppList.no_id app)
                  && confirmed
               then
                 match id app with
                 | Some k =>
                     (e, CallDeleteApp k) ::
                     match (deleteApp e k (world p)).1 with
                     | Ok _ =>
                         if AppList.loading (appList p) then []
                         else if String.eqb
                                   (AppList.selectedCategory (appList p)) "All"
                         then [(e, CallGetAllApps)]
                         else [(e, CallGetAppsByCategory
                                     (AppList.selectedCategory (appList p)))]
                     | Err _ => []
                     end
                 | None => []
                 end
               else []
           | None => []
           end
  | Engine c => if bool_decide (is_operation c) then [] else [(true, c)]
  | _ => []
  end.

Fixpoint ui_calls (userId : string) (evs : list UiEvent) (p : Page)
  : list (bool * Call) :=
  match evs with
  | [] => []
  | ev :: evs =>
      ui_calls_step userId ev p ++ ui_calls userId evs (ui_step userId ev p)
  end.

(** What every record built by the form satisfies. *)
Definition from_form (userId : string) (app : App) : Prop :=
  id app = None ∧ category app ∈ CATEGORIES ∧ ownerId app = userId ∧
  fileType app = blob_type (file app) ∧
  fileSize app = Z.of_nat (length (blob_bytes (file app))) ∧
  iconType app = blob_type <$> icon app ∧
  ∀ i, icon app = Some i → startsWith (blob_type i) "image/" = true.

(** The invariant of the upload form: the select only offers the six
    categories and [handleIconChange] only lets an image through. *)
Definition form_ok (s : AppUpload.State) : Prop :=
  AppUpload.category s ∈ CATEGORIES ∧
  ∀ i, AppUpload.icon s = Some i → startsWith (file_type i) "image/" = true.

(** A file as the file input hands it over, and a session: upload it,
    go back to the list. *)
Definition sample_file : File := mkFile sample_blob "sample.zip".

Definition sample_session : list UiEvent :=
  [ToggleUpload; TypeAppName "Sample"; SelectCategory "Music";
   ChooseFile [sample_file];
   Submit true "2024-03-10T11:59:59.000Z" "2024-03-10T12:00:00.000Z" 3;
   ToggleUpload; Load true].

(** A stored audio record. *)
Definition sample_song : App :=
  mkApp (Some 1) "Song" "" sample_blob "song.mp3" "audio/mpeg" 4
        "2024-03-10T12:00:00.000Z" "user1" "Music" None None.

(** The upload form filled in for [sample_file]. *)
Definition sample_form : AppUpload.State :=
  AppUpload.setCategory "Music"
    (AppUpload.setAppName "Sample"
       (AppUpload.fileInputChange [sample_file] AppUpload.initial)).

(** A database of an earlier version whose store ['apps'] has no index. *)
Definition older_database : IDBDatabase :=
  mkDatabase 4 {[ "apps" := mkStore "id" true ∅ 1 ∅ ]}.

(** * Properties *)

(** ** The order of index records *)

Global Instance key_le_po : PartialOrder key_le.
Proof.
  split; [split|].
  - intros [x|s]; simpl; reflexivity.
  - intros [x|s] [y|t] [z|u]; simpl; try tauto; try lia.
    apply (transitivity (R := String.le)).
  - intros [x|s] [y|t]; simpl; try tauto.
    + intros. f_equal. lia.
    + intros H1 H2. f_equal. by apply (anti_symm String.le).
Qed.

Global Instance key_le_total : Total key_le.
Proof.
  intros [x|s] [y|t]; simpl; try tauto; try lia.
  apply (total String.le).
Qed.

Global Instance entry_le_trans : Transitive entry_le.
Proof.
  intros a b c [Hab Hab'] [Hbc Hbc']. split.
  - by etrans.
  - intros Hca.
    assert (key_le c.1 b.1) by (by etrans).
    assert (key_le b.1 a.1) by (by etrans).
    specialize (Hab' ltac:(done)). specialize (Hbc' ltac:(done)). lia.
Qed.

Global Instance entry_le_total : Total entry_le.
Proof.
  intros a b. unfold entry_le.
  destruct (decide (key_le a.1 b.1)) as [Hab|Hab];
    destruct (decide (key_le b.1 a.1)) as [Hba|Hba].
  - destruct (Z.le_ge_cases a.2 b.2); [left|right]; tauto.
  - left; tauto.
  - right; tauto.
  - destruct (total key_le a.1 b.1); tauto.
Qed.

Global Instance entry_le_antisymm : AntiSymm (=) entry_le.
Proof.
  intros [k1 p1] [k2 p2] [H1 H1'] [H2 H2']; simpl in *.
  assert (k1 = k2) as -> by (by apply (anti_symm key_le)).
  f_equal. specialize (H1' H2). specialize (H2' H1). lia.
Qed.

(** ** Index lookups *)

Section index.
Context (keyPath : string) (recs : gmap Z App).

Lemma elem_of_index_records e :
  e ∈ index_records keyPath recs ↔
  ∃ v, recs !! e.2 = Some v ∧ eval_keyPath keyPath v = Some e.1.
Proof.
  unfold index_records. rewrite merge_sort_Permutation, list_elem_of_omap.
  split.
  - intros [[k v] [Hin He]]. apply elem_of_map_to_list in Hin.
    unfold index_entry in He. simpl in He.
    destruct (eval_keyPath keyPath v) as [ik|] eqn:Hk; simplify_eq/=. eauto.
  - intros (v & Hv & Hk). exists (e.2, v). split.
    + by apply elem_of_map_to_list.
    + unfold index_entry. simpl. rewrite Hk. by destruct e.
Qed.

Lemma index_records_sorted : StronglySorted entry_le (index_records keyPath recs).
Proof. apply StronglySorted_merge_sort; apply _. Qed.

Lemma index_getAll_select_list query (l : list (Z * App)) :
  (∀ r, r ∈ l → recs !! r.1 = Some r.2) →
  omap (λ e, recs !! e.2) (filter (in_range query) (omap (index_entry keyPath) l))
  = omap (index_select keyPath query) l.
Proof.
  induction l as [|[k v] l IH]; intros Hl; [done|].
  assert (recs !! k = Some v) as Hkv by (apply (Hl (k, v)); left).
  assert (∀ r, r ∈ l → recs !! r.1 = Some r.2) as Hl'
    by (intros; apply Hl; by right).
  specialize (IH Hl'). cbn [omap list_omap].
  unfold index_entry at 1, index_select at 1. simpl.
  destruct (eval_keyPath keyPath v) as [ik|]; simpl; [|exact IH].
  rewrite filter_cons. destruct (decide (in_range query (ik, k))); simpl.
  - rewrite Hkv. by f_equal.
  - exact IH.
Qed.

(** An index lookup returns, in some order, the stored values that have
    the index key and are in range: each of them once. *)
Lemma index_getAll_Permutation query :
  index_getAll keyPath query recs
  ≡ₚ omap (index_select keyPath query) (map_to_list recs).
Proof.
  unfold index_getAll, index_records.
  rewrite merge_sort_Permutation, index_getAll_select_list; [done|].
  intros [k v] Hin. by apply elem_of_map_to_list.
Qed.
End index.

Lemma StronglySorted_filter {A} (R : relation A) (P : A → Prop)
    `{∀ x, Decision (P x)} (l : list A) :
  StronglySorted R l → StronglySorted R (filter P l).
Proof.
  induction 1 as [|x l Hl IH Hx]; [constructor|].
  rewrite filter_cons. destruct (decide (P x)); [|done].
  constructor; [done|].
  rewrite Forall_forall in Hx |- *.
  intros y [_ Hy]%list_elem_of_filter. by apply Hx.
Qed.

Lemma StronglySorted_omap {A B} (R : relation A) (R' : relation B)
    (f : A → option B) (l : list A) :
  (∀ x y fx fy, x ∈ l → y ∈ l → f x = Some fx → f y = Some fy →
                R x y → R' fx fy) →
  StronglySorted R l → StronglySorted R' (omap f l).
Proof.
  intros Hf Hl. induction Hl as [|x l Hl IH Hx]; [constructor|].
  assert (StronglySorted R' (omap f l)) as IH'.
  { apply IH. intros. apply (Hf x0 y); try done; by right. }
  cbn [omap list_omap]. destruct (f x) as [fx|] eqn:Hfx; [|done].
  constructor; [done|].
  apply Forall_forall. intros fy [y [Hy Hfy]]%list_elem_of_omap.
  rewrite Forall_forall in Hx.
  apply (Hf x y); try done; [left | by right | by apply Hx].
Qed.

(** ** The engine on the store of [db.ts] *)

Lemma openDB_creates :
  openDB true dbVersion upgrade no_database = Ok created_database.
Proof. vm_compute. reflexivity. Qed.

Lemma openDB_current e st :
  openDB e dbVersion upgrade (mkDatabase 5 {[ "apps" := st ]})
  = if e then Ok (mkDatabase 5 {[ "apps" := st ]}) else Err UnknownError.
Proof. by destruct e. Qed.

Lemma db_add_apps v st :
  db_add "apps" v (mkDatabase 5 {[ "apps" := st ]})
  = match store_add v st with
    | Ok (k, st') => Ok (k, mkDatabase 5 {[ "apps" := st' ]})
    | Err x => Err x
    end.
Proof.
  unfold db_add, objectStore. simpl. rewrite lookup_singleton_eq. simpl.
  destruct (store_add v st) as [[k st']|x]; simpl; [|done].
  unfold put_store. simpl. by rewrite insert_singleton_eq.
Qed.

Lemma db_delete_apps k st :
  db_delete "apps" k (mkDatabase 5 {[ "apps" := st ]})
  = Ok (mkDatabase 5 {[ "apps" := store_delete k st ]}).
Proof.
  unfold db_delete, objectStore. simpl. rewrite lookup_singleton_eq. simpl.
  unfold put_store. simpl. by rewrite insert_singleton_eq.
Qed.

Lemma db_getAllFromIndex_apps n query st :
  db_getAllFromIndex "apps" n query (mkDatabase 5 {[ "apps" := st ]})
  = match store_indexes st !! n with
    | Some keyPath => Ok (index_getAll keyPath query (store_records st))
    | None => Err NotFoundError
    end.
Proof.
  unfold db_getAllFromIndex, objectStore. simpl.
  by rewrite lookup_singleton_eq.
Qed.

Lemma store_add_spec v st :
  store_ok st →
  match store_add v st with
  | Ok (k, st') =>
      store_ok st' ∧
      store_records st !! k = None ∧
      store_records st' = <[k := with_id k v]> (store_records st) ∧
      store_keygen st ≤ store_keygen st' ∧
      match id v with
      | Some j => k = j
      | None => k = store_keygen st ∧ store_keygen st' = k + 1
      end
  | Err x =>
      match id v with
      | Some j => is_Some (store_records st !! j)
      | None => store_keygen st = MAX_GENERATED + 1
      end
  end.
Proof.
  intros [Hkp Hai Hix Hg Hr]. unfold store_add. rewrite Hai. simpl.
  assert (∀ k g, store_keygen st ≤ g → g ≤ MAX_GENERATED + 1 →
                 Z.min k MAX_GENERATED < g →
                 store_records st !! k = None →
                 store_ok (mkStore (store_keyPath st) true (store_indexes st) g
                             (<[k := with_id k v]> (store_records st)))) as Hok.
  { intros k g Hg1 Hg2 Hk Hnone. split; simpl; try done; [lia|].
    intros j u. rewrite lookup_insert. case_decide as Hjk.
    - intros [= <-]. by subst.
    - intros Hu. destruct (Hr j u Hu). split; [done|lia]. }
  destruct (id v) as [j|] eqn:Hid; simpl.
  - destruct (decide (is_Some (store_records st !! j))) as [Hs|Hn]; [done|].
    apply eq_None_not_Some in Hn.
    assert (store_keygen st ≤ bump_keygen j (store_keygen st) ≤ MAX_GENERATED + 1
            ∧ Z.min j MAX_GENERATED < bump_keygen j (store_keygen st)) as Hb.
    { unfold bump_keygen. case_decide; lia. }
    split_and!; try done; [apply Hok; try done; lia | simpl; lia].
  - destruct (decide (MAX_GENERATED < store_keygen st)) as [Hmax|Hmax];
      simpl; [lia|].
    assert (store_records st !! store_keygen st = None) as Hnone.
    { destruct (store_records st !! store_keygen st) as [u|] eqn:Hu; [|done].
      destruct (Hr _ _ Hu). lia. }
    destruct (decide (is_Some (store_records st !! store_keygen st))) as [Hs|_].
    { rewrite Hnone in Hs. by destruct Hs. }
    split_and!; try done; [apply Hok; try done; lia | simpl; lia].
Qed.

Lemma store_delete_ok k st : store_ok st → store_ok (store_delete k st).
Proof.
  intros [Hkp Hai Hix Hg Hr]. split; simpl; try done.
  intros j u [_ Hu]%lookup_delete_Some. by apply Hr.
Qed.

(** ** The operations of [db.ts] on a well-formed world *)

Lemma with_store_ok st : store_ok st → world_ok (with_store st).
Proof. intros Hst. right. exists st. auto. Qed.

Lemma the_store_with_store st : the_store (with_store st) = st.
Proof. unfold the_store, with_store. simpl. by rewrite lookup_singleton_eq. Qed.

Lemma stored_with_store st : stored (with_store st) = store_records st.
Proof. unfold stored, with_store. simpl. by rewrite lookup_singleton_eq. Qed.

Lemma keygen_with_store st : keygen (with_store st) = store_keygen st.
Proof. unfold keygen, with_store. simpl. by rewrite lookup_singleton_eq. Qed.

Lemma world_ok_the_store w :
  world_ok w →
  store_ok (the_store w) ∧ store_records (the_store w) = stored w ∧
  store_keygen (the_store w) = keygen w.
Proof.
  destruct w as [p db]. unfold the_store, stored, keygen.
  intros [[Hdb Hp] | (st & Hdb & Hst & _)]; simpl in *; subst; simpl.
  - split_and!; try done; split; simpl; try done; unfold MAX_GENERATED; lia.
  - by rewrite lookup_singleton_eq.
Qed.

Lemma getDB_eq e w :
  world_ok w →
  getDB e w = if connects e w then (Ok (), opened w) else (Err UnknownError, w).
Proof.
  destruct w as [p db]. unfold getDB, initDB, connects, opened, the_store.
  intros [[Hdb Hp] | (st & Hdb & Hst & [Hp | Hp])]; simpl in *; subst;
    cbn [db_stores].
  - destruct e; [by rewrite openDB_creates | done].
  - rewrite openDB_current, lookup_singleton_eq. by destruct e.
  - by rewrite lookup_singleton_eq.
Qed.

Lemma addApp_eq e now app w :
  world_ok w →
  addApp e now app w =
  if connects e w then
    match store_add (with_uploadDate now app) (the_store w) with
    | Ok (k, st') => (Ok k, with_store st')
    | Err x => (Err x, opened w)
    end
  else (Err UnknownError, w).
Proof.
  intros Hw. unfold addApp. rewrite (getDB_eq _ _ Hw).
  destruct (connects e w); [|done].
  unfold opened, with_store. simpl. rewrite db_add_apps.
  by destruct (store_add _ _) as [[k st']|x].
Qed.

Lemma deleteApp_eq e k w :
  world_ok w →
  deleteApp e k w =
  if connects e w then (Ok (), with_store (store_delete k (the_store w)))
  else (Err UnknownError, w).
Proof.
  intros Hw. unfold deleteApp. rewrite (getDB_eq _ _ Hw).
  destruct (connects e w); [|done].
  unfold opened, with_store. simpl. by rewrite db_delete_apps.
Qed.

Lemma getAllApps_eq e w :
  world_ok w →
  getAllApps e w =
  if connects e w
  then (Ok (index_getAll "uploadDate" None (stored w)), opened w)
  else (Err UnknownError, w).
Proof.
  intros Hw. unfold getAllApps. rewrite (getDB_eq _ _ Hw).
  destruct (connects e w); [|done].
  destruct (world_ok_the_store w Hw) as ([_ _ Hix _ _] & <- & _).
  unfold opened, with_store. simpl.
  by rewrite db_getAllFromIndex_apps, Hix.
Qed.

Lemma getAppsByCategory_eq e c w :
  world_ok w →
  getAppsByCategory e c w =
  if connects e w
  then (Ok (index_getAll "category" (Some (KStr c)) (stored w)), opened w)
  else (Err UnknownError, w).
Proof.
  intros Hw. unfold getAppsByCategory. rewrite (getDB_eq _ _ Hw).
  destruct (connects e w); [|done].
  destruct (world_ok_the_store w Hw) as ([_ _ Hix _ _] & <- & _).
  unfold opened, with_store. simpl.
  by rewrite db_getAllFromIndex_apps, Hix.
Qed.

Lemma opened_ok w : world_ok w → world_ok (opened w).
Proof. intros Hw. apply with_store_ok. by apply world_ok_the_store. Qed.

Lemma stored_opened w : world_ok w → stored (opened w) = stored w.
Proof.
  intros Hw. unfold opened. rewrite stored_with_store.
  by apply world_ok_the_store.
Qed.

Lemma keygen_opened w : world_ok w → keygen (opened w) = keygen w.
Proof.
  intros Hw. unfold opened. rewrite keygen_with_store.
  by apply world_ok_the_store.
Qed.

Lemma set_dbPromise_None_ok w : world_ok w → world_ok (set_dbPromise None w).
Proof.
  destruct w as [p db].
  intros [[Hdb Hp] | (st & Hdb & Hst & _)]; simpl in *; subst.
  - by left.
  - right. exists st. auto.
Qed.

Lemma exec_ok e c w : world_ok w → world_ok (exec e c w).
Proof.
  intros Hw. destruct (world_ok_the_store w Hw) as (Hst & _ & _).
  destruct c as [now app| |cat|k| | |]; simpl.
  - rewrite (addApp_eq _ _ _ _ Hw). destruct (connects e w); [|done].
    pose proof (store_add_spec (with_uploadDate now app) _ Hst) as Hadd.
    destruct (store_add _ _) as [[k st']|x]; simpl.
    + apply with_store_ok, Hadd.
    + by apply opened_ok.
  - rewrite (getAllApps_eq _ _ Hw).
    destruct (connects e w); [by apply opened_ok | done].
  - rewrite (getAppsByCategory_eq _ _ _ Hw).
    destruct (connects e w); [by apply opened_ok | done].
  - rewrite (deleteApp_eq _ _ _ Hw). destruct (connects e w); [|done].
    by apply with_store_ok, store_delete_ok.
  - done.
  - by apply set_dbPromise_None_ok.
  - by apply set_dbPromise_None_ok.
Qed.

Lemma initial_world_ok : world_ok initial_world.
Proof. by left. Qed.

Lemma reachable_ok P w : reachable P w → world_ok w.
Proof. induction 1; [apply initial_world_ok | by apply exec_ok]. Qed.

Lemma reachable_weaken (P Q : App → Prop) w :
  (∀ app, P app → Q app) → reachable P w → reachable Q w.
Proof.
  intros HPQ. induction 1 as [|e c w Hw IH Hc]; [constructor|].
  constructor; [done|]. destruct c; simpl in *; auto.
Qed.

Lemma world_ok_connects w : world_ok w → connects true w = true.
Proof.
  unfold connects.
  by intros [[_ ->] | (st & _ & _ & [-> | ->])].
Qed.

Lemma reachable_run P calls w :
  reachable P w → Forall (λ ec, admits P ec.2) calls → reachable P (run calls w).
Proof.
  intros Hw Hcalls. revert w Hw.
  induction Hcalls as [|[e c] calls Hc _ IH]; intros w Hw; [done|].
  simpl. apply IH. by constructor.
Qed.

Lemma sample_world_reachable : reachable App_typed sample_world.
Proof.
  apply reachable_run; [constructor|].
  unfold sample_trace, App_typed.
  repeat constructor; simpl; compute_done.
Qed.

(** ** Listing *)

Lemma eval_keyPath_uploadDate v :
  eval_keyPath "uploadDate" v = Some (KStr (uploadDate v)).
Proof. reflexivity. Qed.

Lemma eval_keyPath_category v :
  eval_keyPath "category" v = Some (KStr (category v)).
Proof. reflexivity. Qed.

Lemma index_select_uploadDate r : index_select "uploadDate" None r = Some r.2.
Proof. reflexivity. Qed.

Lemma index_select_category c r :
  index_select "category" (Some (KStr c)) r
  = if decide (category r.2 = c) then Some r.2 else None.
Proof.
  unfold index_select. rewrite eval_keyPath_category. simpl.
  repeat case_decide; simplify_eq/=; done.
Qed.

Lemma all_by_uploadDate_Permutation (recs : gmap Z App) :
  index_getAll "uploadDate" None recs ≡ₚ (map_to_list recs).*2.
Proof.
  rewrite index_getAll_Permutation.
  induction (map_to_list recs) as [|r l IH]; [done|].
  cbn [omap list_omap]. rewrite index_select_uploadDate. simpl. by f_equiv.
Qed.

Lemma by_category_Permutation c (recs : gmap Z App) :
  index_getAll "category" (Some (KStr c)) recs
  ≡ₚ filter (λ a, category a = c) (map_to_list recs).*2.
Proof.
  rewrite index_getAll_Permutation.
  induction (map_to_list recs) as [|r l IH]; [done|].
  cbn [omap list_omap]. rewrite index_select_category. simpl.
  rewrite filter_cons. case_decide; [by f_equiv | done].
Qed.

(** C1.  In every world the page can reach, and for each of the six
    categories, [getAppsByCategory c] returns the records of [getAllApps]
    whose [category] is [c], each as often as [getAllApps] has it (the
    two lists are equal up to order); and both succeed whenever the
    engine opens the database. *)
Theorem getAppsByCategory_is_getAllApps_filtered e c w :
  reachable any_app w → c ∈ CATEGORIES →
  (∀ all, (getAllApps e w).1 = Ok all →
     ∃ sel, (getAppsByCategory e c w).1 = Ok sel ∧
            sel ≡ₚ filter (λ a, category a = c) all) ∧
  (∃ all, (getAllApps true w).1 = Ok all).
Proof.
  intros Hw%reachable_ok _. split.
  - intros all. rewrite (getAllApps_eq _ _ Hw), (getAppsByCategory_eq _ _ _ Hw).
    destruct (connects e w); simpl; [|done].
    intros [= <-]. eexists; split; [done|].
    by rewrite by_category_Permutation, all_by_uploadDate_Permutation.
  - rewrite (getAllApps_eq _ _ Hw), (world_ok_connects _ Hw). simpl. eauto.
Qed.

Lemma getAppsByCategory_is_getAllApps_filtered_witness :
  reachable any_app sample_world ∧ "Games" ∈ CATEGORIES ∧
  (∀ all, (getAllApps true sample_world).1 = Ok all →
     ∃ sel, (getAppsByCategory true "Games" sample_world).1 = Ok sel ∧
            sel ≡ₚ filter (λ a, category a = "Games") all) ∧
  (∃ all, (getAllApps true sample_world).1 = Ok all).
Proof.
  assert (reachable any_app sample_world) as Hw.
  { apply (reachable_weaken App_typed); [done | apply sample_world_reachable]. }
  assert ("Games" ∈ CATEGORIES) as Hc by compute_done.
  split; [exact Hw|]. split; [exact Hc|].
  exact (getAppsByCategory_is_getAllApps_filtered true "Games" sample_world Hw Hc).
Defined.

Lemma elem_of_all_by_uploadDate (recs : gmap Z App) a :
  a ∈ index_getAll "uploadDate" None recs ↔ ∃ j, recs !! j = Some a.
Proof.
  rewrite all_by_uploadDate_Permutation, list_elem_of_fmap. split.
  - intros [[j v] [-> Hin%elem_of_map_to_list]]. eauto.
  - intros [j Hj]. exists (j, a). split; [done|]. by apply elem_of_map_to_list.
Qed.

Lemma stored_id w k v : world_ok w → stored w !! k = Some v → id v = Some k.
Proof.
  intros Hw Hv. destruct (world_ok_the_store w Hw) as ([_ _ _ _ Hr] & Hs & _).
  rewrite <-Hs in Hv. by apply Hr in Hv as [? _].
Qed.

(** ** Adding *)

Lemma addApp_Ok e now app w k w' :
  world_ok w → addApp e now app w = (Ok k, w') →
  world_ok w' ∧ dbPromise w' = Some Fulfilled ∧
  stored w !! k = None ∧
  stored w' = <[k := with_id k (with_uploadDate now app)]> (stored w) ∧
  keygen w ≤ keygen w' ∧
  match id app with
  | Some j => k = j
  | None => k = keygen w ∧ keygen w' = k + 1
  end.
Proof.
  intros Hw. rewrite (addApp_eq _ _ _ _ Hw).
  destruct (world_ok_the_store w Hw) as (Hst & Hs & Hg).
  destruct (connects e w); [|done].
  pose proof (store_add_spec (with_uploadDate now app) _ Hst) as Hadd.
  destruct (store_add _ _) as [[k' st']|x]; [|done].
  intros [= -> <-]. destruct Hadd as (Hst' & Hnone & Hrecs & Hmono & Hk).
  rewrite stored_with_store, keygen_with_store, <-Hs, <-Hg.
  split_and!; try done. by apply with_store_ok.
Qed.

Lemma addApp_generates now app w :
  world_ok w → id app = None → keygen w ≤ MAX_GENERATED →
  ∃ w', addApp true now app w = (Ok (keygen w), w').
Proof.
  intros Hw Hid Hmax. rewrite (addApp_eq _ _ _ _ Hw), (world_ok_connects _ Hw).
  destruct (world_ok_the_store w Hw) as (Hst & Hs & Hg).
  pose proof (store_add_spec (with_uploadDate now app) _ Hst) as Hadd.
  destruct (store_add _ _) as [[k' st']|x]; simpl in Hadd; rewrite Hid in Hadd.
  - destruct Hadd as (_ & _ & _ & _ & -> & _). rewrite Hg. eauto.
  - lia.
Qed.

(** C2.  Whatever [uploadDate] the caller put into the record, a successful
    [addApp] inserts exactly one new record: the caller's record with
    [uploadDate] replaced by the clock reading [now] and with the returned
    number as its [id]; that number was not in use before.  And [addApp]
    does return an identifier (the generator's next number) for a record
    without [id] whenever the engine opens the database and the generator
    is not exhausted. *)
Theorem addApp_stamps_and_returns_id e now app w :
  reachable any_app w →
  (∀ k w', addApp e now app w = (Ok k, w') →
     ∃ r, stored w' = <[k := r]> (stored w) ∧ stored w !! k = None ∧
          r = with_id k (with_uploadDate now app) ∧
          uploadDate r = now ∧ id r = Some k ∧ same_payload r app) ∧
  (id app = None → keygen w ≤ MAX_GENERATED →
     ∃ w', addApp true now app w = (Ok (keygen w), w')).
Proof.
  intros Hw%reachable_ok. split.
  - intros k w' Hadd.
    destruct (addApp_Ok _ _ _ _ _ _ Hw Hadd) as (_ & _ & Hnone & Hrecs & _).
    eexists. split_and!; try done.
  - by apply addApp_generates.
Qed.

Lemma addApp_stamps_and_returns_id_witness :
  reachable any_app sample_world ∧
  (∀ k w',
     addApp true "2024-03-10T12:30:00.000Z" (sample_app "Chess" "Games")
            sample_world = (Ok k, w') →
     ∃ r, stored w' = <[k := r]> (stored sample_world) ∧
          stored sample_world !! k = None ∧
          r = with_id k (with_uploadDate "2024-03-10T12:30:00.000Z"
                                         (sample_app "Chess" "Games")) ∧
          uploadDate r = "2024-03-10T12:30:00.000Z" ∧ id r = Some k ∧
          same_payload r (sample_app "Chess" "Games")) ∧
  (id (sample_app "Chess" "Games") = None →
   keygen sample_world ≤ MAX_GENERATED →
     ∃ w', addApp true "2024-03-10T12:30:00.000Z" (sample_app "Chess" "Games")
                  sample_world = (Ok (keygen sample_world), w')).
Proof.
  assert (reachable any_app sample_world) as Hw.
  { apply (reachable_weaken App_typed); [done | apply sample_world_reachable]. }
  split; [exact Hw|].
  exact (addApp_stamps_and_returns_id true "2024-03-10T12:30:00.000Z"
           (sample_app "Chess" "Games") sample_world Hw).
Defined.

(** ** Deleting *)

Lemma deleteApp_Ok e k w w' :
  world_ok w → deleteApp e k w = (Ok (), w') →
  world_ok w' ∧ dbPromise w' = Some Fulfilled ∧
  stored w' = delete k (stored w) ∧ keygen w' = keygen w.
Proof.
  intros Hw. rewrite (deleteApp_eq _ _ _ Hw).
  destruct (world_ok_the_store w Hw) as (Hst & Hs & Hg).
  destruct (connects e w); [|done]. intros [= <-].
  rewrite stored_with_store, keygen_with_store. simpl. rewrite Hs, Hg.
  split_and!; try done. by apply with_store_ok, store_delete_ok.
Qed.

(** C3.  After a successful [deleteApp k], [getAllApps] succeeds and lists
    no record whose [id] is [k].  [deleteApp] succeeds whenever the engine
    opens the database, whether or not [k] is present; it can only fail
    the way [getDB] fails.  When [k] is not present the stored records are
    left as they were: the call does to the world what [getDB] alone
    does. *)
Theorem deleteApp_removes_and_tolerates_absent e k w :
  reachable any_app w →
  (∀ w', deleteApp e k w = (Ok (), w') →
     ∀ e', ∃ all, (getAllApps e' w').1 = Ok all ∧
                  ∀ a, a ∈ all → id a ≠ Some k) ∧
  (∃ w', deleteApp true k w = (Ok (), w')) ∧
  (∀ x w', deleteApp e k w = (Err x, w') → (getDB e w).1 = Err x) ∧
  (stored w !! k = None →
   stored (deleteApp e k w).2 = stored w ∧
   (deleteApp e k w).2 = (getDB e w).2).
Proof.
  intros Hw%reachable_ok. split_and!.
  - intros w' Hdel e'.
    destruct (deleteApp_Ok _ _ _ _ Hw Hdel) as (Hw' & Hp & Hrecs & _).
    rewrite (getAllApps_eq _ _ Hw'). unfold connects. rewrite Hp. simpl.
    eexists. split; [done|].
    intros a [j Hj]%elem_of_all_by_uploadDate.
    rewrite (stored_id _ _ _ Hw' Hj). intros [= ->].
    by rewrite Hrecs, lookup_delete_eq in Hj.
  - rewrite (deleteApp_eq _ _ _ Hw), (world_ok_connects _ Hw). eauto.
  - intros x w'. rewrite (deleteApp_eq _ _ _ Hw), (getDB_eq _ _ Hw).
    destruct (connects e w); [done|]. by intros [= <- <-].
  - intros Hnone. rewrite (deleteApp_eq _ _ _ Hw), (getDB_eq _ _ Hw).
    destruct (world_ok_the_store w Hw) as (_ & Hs & _).
    destruct (connects e w); simpl; [|done].
    rewrite stored_with_store. simpl. rewrite Hs, delete_id by done.
    split; [done|]. unfold opened. f_equal.
    unfold store_delete. rewrite Hs, delete_id, <-Hs by done.
    by destruct (the_store w).
Qed.

Lemma deleteApp_removes_and_tolerates_absent_witness :
  reachable any_app sample_world ∧
  (∀ w', deleteApp true 2 sample_world = (Ok (), w') →
     ∀ e', ∃ all, (getAllApps e' w').1 = Ok all ∧
                  ∀ a, a ∈ all → id a ≠ Some 2) ∧
  (∃ w', deleteApp true 2 sample_world = (Ok (), w')) ∧
  (∀ x w', deleteApp true 2 sample_world = (Err x, w') →
           (getDB true sample_world).1 = Err x) ∧
  (stored sample_world !! 2 = None →
   stored (deleteApp true 2 sample_world).2 = stored sample_world ∧
   (deleteApp true 2 sample_world).2 = (getDB true sample_world).2).
Proof.
  assert (reachable any_app sample_world) as Hw.
  { apply (reachable_weaken App_typed); [done | apply sample_world_reachable]. }
  split; [exact Hw|].
  exact (deleteApp_removes_and_tolerates_absent true 2 sample_world Hw).
Defined.

(** ** Round trip *)

Lemma filter_none {A} (P : A → Prop) `{∀ x, Decision (P x)} (l : list A) :
  (∀ x, x ∈ l → ¬ P x) → filter P l = [].
Proof.
  induction l as [|x l IH]; intros Hl; [done|].
  rewrite filter_cons, decide_False by (apply Hl; left).
  apply IH. intros y Hy. apply Hl. by right.
Qed.

Lemma filter_comm {A} (P Q : A → Prop)
    `{∀ x, Decision (P x), ∀ x, Decision (Q x)} (l : list A) :
  filter P (filter Q l) = filter Q (filter P l).
Proof. rewrite !list_filter_filter. apply list_filter_iff. tauto. Qed.

(** Among the values of a store, exactly one carries a given stored key. *)
Lemma filter_id_stored (m : gmap Z App) k r :
  (∀ j v, m !! j = Some v → id v = Some j) →
  m !! k = Some r →
  filter (λ a, id a = Some k) (map_to_list m).*2 ≡ₚ [r].
Proof.
  intros Hid Hk.
  rewrite <-(insert_delete_id m k r Hk) at 1.
  rewrite map_to_list_insert by apply lookup_delete_eq.
  rewrite fmap_cons, filter_cons. simpl.
  rewrite decide_True by (by apply (Hid k)).
  f_equiv. rewrite filter_none; [done|].
  intros a [[j v] [-> Hin%elem_of_map_to_list]]%list_elem_of_fmap. simpl.
  apply lookup_delete_Some in Hin as [Hne Hv].
  rewrite (Hid _ _ Hv). congruence.
Qed.

(** C7.  After a successful [addApp] of [app] that returned [k], both
    [getAllApps] and [getAppsByCategory (category app)] succeed and hold
    exactly one record with [id] [k]; it has the bytes and media type of
    the [file] that was passed, the same [fileType] and [fileSize], and
    indeed every property of [app] except [id] (now [k]) and [uploadDate]
    (now the clock reading). *)
Theorem addApp_then_list_round_trip e now app w k w' :
  reachable any_app w →
  addApp e now app w = (Ok k, w') →
  ∀ e', ∃ all sel r,
    (getAllApps e' w').1 = Ok all ∧
    (getAppsByCategory e' (category app) w').1 = Ok sel ∧
    filter (λ a, id a = Some k) all = [r] ∧
    filter (λ a, id a = Some k) sel = [r] ∧
    blob_bytes (file r) = blob_bytes (file app) ∧
    blob_type (file r) = blob_type (file app) ∧
    fileType r = fileType app ∧ fileSize r = fileSize app ∧
    same_payload r app ∧ id r = Some k ∧ uploadDate r = now.
Proof.
  intros Hw%reachable_ok Hadd e'.
  destruct (addApp_Ok _ _ _ _ _ _ Hw Hadd) as (Hw' & Hp & Hnone & Hrecs & _).
  rewrite (getAllApps_eq _ _ Hw'), (getAppsByCategory_eq _ _ _ Hw').
  unfold connects. rewrite Hp. simpl.
  set (r := with_id k (with_uploadDate now app)).
  assert (stored w' !! k = Some r) as Hk by (by rewrite Hrecs, lookup_insert_eq).
  pose proof (filter_id_stored (stored w') k r (λ j v, stored_id w' j v Hw') Hk) as Hone.
  exists (index_getAll "uploadDate" None (stored w')),
         (index_getAll "category" (Some (KStr (category app))) (stored w')), r.
  split_and!; try done.
  - apply Permutation_singleton_r.
    by rewrite all_by_uploadDate_Permutation.
  - apply Permutation_singleton_r.
    rewrite by_category_Permutation, filter_comm, Hone.
    rewrite filter_cons, decide_True by done. done.
Qed.

Lemma addApp_then_list_round_trip_witness :
  reachable any_app initial_world ∧
  addApp true "2024-03-10T12:00:00.000Z" (sample_app "Calculator" "Tools")
         initial_world
  = (Ok 1, with_store
             (mkStore "id" true apps_indexes 2
                {[ 1 := with_id 1 (with_uploadDate "2024-03-10T12:00:00.000Z"
                                     (sample_app "Calculator" "Tools")) ]})) ∧
  ∃ all sel r,
    (getAllApps false
       (with_store
          (mkStore "id" true apps_indexes 2
             {[ 1 := with_id 1 (with_uploadDate "2024-03-10T12:00:00.000Z"
                                  (sample_app "Calculator" "Tools")) ]}))).1
    = Ok all ∧
    (getAppsByCategory false (category (sample_app "Calculator" "Tools"))
       (with_store
          (mkStore "id" true apps_indexes 2
             {[ 1 := with_id 1 (with_uploadDate "2024-03-10T12:00:00.000Z"
                                  (sample_app "Calculator" "Tools")) ]}))).1
    = Ok sel ∧
    filter (λ a, id a = Some 1) all = [r] ∧
    filter (λ a, id a = Some 1) sel = [r] ∧
    blob_bytes (file r) = blob_bytes (file (sample_app "Calculator" "Tools")) ∧
    blob_type (file r) = blob_type (file (sample_app "Calculator" "Tools")) ∧
    fileType r = fileType (sample_app "Calculator" "Tools") ∧
    fileSize r = fileSize (sample_app "Calculator" "Tools") ∧
    same_payload r (sample_app "Calculator" "Tools") ∧ id r = Some 1 ∧
    uploadDate r = "2024-03-10T12:00:00.000Z".
Proof.
  assert (addApp true "2024-03-10T12:00:00.000Z"
            (sample_app "Calculator" "Tools") initial_world
          = (Ok 1, with_store
               (mkStore "id" true apps_indexes 2
                  {[ 1 := with_id 1 (with_uploadDate "2024-03-10T12:00:00.000Z"
                                       (sample_app "Calculator" "Tools")) ]})))
    as Hadd by (vm_compute; reflexivity).
  split; [constructor|]. split; [exact Hadd|].
  exact (addApp_then_list_round_trip true "2024-03-10T12:00:00.000Z"
           (sample_app "Calculator" "Tools") initial_world 1 _
           (reachable_initial any_app) Hadd false).
Defined.

(** ** What a call does to the stored records *)

Lemma addApp_Err e now app w x w' :
  world_ok w → addApp e now app w = (Err x, w') →
  stored w' = stored w ∧ keygen w' = keygen w.
Proof.
  intros Hw. rewrite (addApp_eq _ _ _ _ Hw).
  destruct (connects e w); [|by intros [= _ <-]].
  destruct (store_add _ _) as [[k st']|y]; [done|]. intros [= _ <-].
  by rewrite (stored_opened _ Hw), (keygen_opened _ Hw).
Qed.

Lemma stored_exec e c w :
  world_ok w →
  stored (exec e c w) =
  match c with
  | CallAddApp now app =>
      match (addApp e now app w).1 with
      | Ok k => <[k := with_id k (with_uploadDate now app)]> (stored w)
      | Err _ => stored w
      end
  | CallDeleteApp k =>
      match (deleteApp e k w).1 with
      | Ok _ => delete k (stored w)
      | Err _ => stored w
      end
  | _ => stored w
  end.
Proof.
  intros Hw. destruct c as [now app| |cat|k| | |]; simpl; try done.
  - destruct (addApp e now app w) as [[k|x] w'] eqn:Hadd; simpl.
    + by apply (addApp_Ok _ _ _ _ _ _ Hw) in Hadd as (_ & _ & _ & ? & _).
    + by apply (addApp_Err _ _ _ _ _ _ Hw) in Hadd as [? _].
  - rewrite (getAllApps_eq _ _ Hw).
    destruct (connects e w); simpl; [by apply stored_opened | done].
  - rewrite (getAppsByCategory_eq _ _ _ Hw).
    destruct (connects e w); simpl; [by apply stored_opened | done].
  - rewrite (deleteApp_eq _ _ _ Hw).
    destruct (world_ok_the_store w Hw) as (_ & Hs & _).
    destruct (connects e w); simpl; [|done].
    by rewrite stored_with_store, <-Hs.
Qed.

(** Every stored record is a record that was handed to [addApp], stamped
    and keyed by the store. *)
Lemma reachable_stored P w k v :
  reachable P w → stored w !! k = Some v →
  ∃ now app, P app ∧ v = with_id k (with_uploadDate now app).
Proof.
  intros Hw. revert k v.
  induction Hw as [|e c w Hw IH Hc]; intros k v; [done|].
  rewrite (stored_exec _ _ _ (reachable_ok _ _ Hw)).
  destruct c as [now app| |cat|j| | |]; simpl in Hc; auto.
  - destruct (addApp e now app w).1 as [k'|x]; [|by auto].
    rewrite lookup_insert. case_decide; [|by auto].
    intros [= <-]. subst. eauto.
  - destruct (deleteApp e j w).1; [|by auto].
    intros [_ Hv]%lookup_delete_Some. eauto.
Qed.

(** ** Categories *)

Lemma Books_unlisted : "Books" ∉ CATEGORIES.
Proof. compute_done. Qed.


(** C9, as the code has it.  [addApp] stores whatever [category] it is
    given; every stored [category] is one of the six as long as every
    record handed to [addApp] has one of the six, which is what the type
    [App] asks of the caller. *)
Theorem stored_category_in_CATEGORIES w k v :
  reachable App_typed w → stored w !! k = Some v → category v ∈ CATEGORIES.
Proof.
  intros Hw Hv.
  by destruct (reachable_stored _ _ _ _ Hw Hv) as (now & app & Happ & ->).
Qed.

Lemma stored_category_in_CATEGORIES_witness :
  reachable App_typed sample_world ∧
  stored sample_world !! 3
  = Some (with_id 3 (with_uploadDate "2024-03-10T12:00:01.500Z"
                       (sample_app "Go" "Games"))) ∧
  category (with_id 3 (with_uploadDate "2024-03-10T12:00:01.500Z"
                         (sample_app "Go" "Games"))) ∈ CATEGORIES.
Proof.
  assert (stored sample_world !! 3
          = Some (with_id 3 (with_uploadDate "2024-03-10T12:00:01.500Z"
                               (sample_app "Go" "Games")))) as Hv
    by (vm_compute; reflexivity).
  split; [exact sample_world_reachable|]. split; [exact Hv|].
  exact (stored_category_in_CATEGORIES sample_world 3 _
           sample_world_reachable Hv).
Defined.

(** C9, as the claim has it, fails: a record whose [category] is none of
    the six is stored like any other. *)
Lemma addApp_stores_unlisted_category :
("Books" ∉ CATEGORIES) ∧
  reachable any_app
    (exec true (CallAddApp "2024-03-10T12:00:00.000Z" (sample_app "Atlas" "Books"))
          initial_world) ∧
  ∃ r, stored (exec true (CallAddApp "2024-03-10T12:00:00.000Z"
                            (sample_app "Atlas" "Books")) initial_world) !! 1
       = Some r ∧ category r = "Books".
Proof.
  split; [exact Books_unlisted|].
  split; [by repeat constructor|].
  eexists. split; [vm_compute; reflexivity | reflexivity].
Qed.




(** ** The schema *)

Lemma Ok_bind {A B} (a : A) (f : A → Result B) : Ok a ≫= f = f a.
Proof. reflexivity. Qed.

Lemma objectStoreNames_contains_Some db n st :
  db_stores db !! n = Some st → objectStoreNames_contains db n = true.
Proof.
  intros Hst. unfold objectStoreNames_contains.
  apply bool_decide_eq_true_2. by rewrite Hst.
Qed.

Lemma objectStoreNames_contains_None db n :
  db_stores db !! n = None → objectStoreNames_contains db n = false.
Proof.
  intros Hst. unfold objectStoreNames_contains.
  apply bool_decide_eq_false_2. rewrite Hst. by intros [??].
Qed.

Lemma upgrade_existing db st oldVersion :
  db_stores db !! "apps" = Some st →
  upgrade db oldVersion =
  Ok (if bool_decide (oldVersion < 5) && negb (indexNames_contains st "category")
      then put_store "apps"
             (mkStore (store_keyPath st) (store_autoIncrement st)
                      (<["category" := "category"]> (store_indexes st))
                      (store_keygen st) (store_records st)) db
      else db).
Proof.
  intros Hst. unfold upgrade.
  rewrite (objectStoreNames_contains_Some _ _ _ Hst). simpl.
  rewrite (objectStoreNames_contains_Some _ _ _ Hst).
  destruct (bool_decide (oldVersion < 5)); simpl; [|done].
  unfold objectStore, createIndex. rewrite Hst. simpl.
  destruct (indexNames_contains st "category") eqn:Hc; simpl; [done|].
  unfold objectStore. rewrite Hst. simpl. by rewrite Hc.
Qed.

Lemma created_indexes :
  <["category" := "category"]>
    (<["ownerId" := "ownerId"]> (<["uploadDate" := "uploadDate"]> ∅))
  = apps_indexes.
Proof. vm_compute. reflexivity. Qed.

Lemma objectStore_put sn st db : objectStore (put_store sn st db) sn = Ok st.
Proof. unfold objectStore, put_store. simpl. by rewrite lookup_insert_eq. Qed.

Lemma createIndex_fresh sn n kp p a ix g r db :
  ix !! n = None →
  createIndex sn n kp (put_store sn (mkStore p a ix g r) db)
  = Ok (put_store sn (mkStore p a (<[n := kp]> ix) g r) db).
Proof.
  intros Hn. unfold createIndex, objectStore, put_store, indexNames_contains.
  cbn [db_stores db_version]. rewrite lookup_insert_eq. cbn [store_indexes].
  rewrite Ok_bind. cbn [store_indexes].
  rewrite bool_decide_eq_false_2 by (rewrite Hn; by intros [??]).
  by rewrite insert_insert_eq.
Qed.

Lemma upgrade_missing db oldVersion :
  db_stores db !! "apps" = None →
  upgrade db oldVersion =
  Ok (put_store "apps" (mkStore "id" true apps_indexes 1 ∅) db).
Proof.
  intros Hst. unfold upgrade, createObjectStore.
  rewrite (objectStoreNames_contains_None _ _ Hst). cbn [negb].
  rewrite Ok_bind, createIndex_fresh by done.
  rewrite Ok_bind, createIndex_fresh by done.
  rewrite Ok_bind, createIndex_fresh by done.
  rewrite Ok_bind, created_indexes.
  rewrite (objectStoreNames_contains_Some _ "apps" (mkStore "id" true apps_indexes 1 ∅))
    by apply lookup_insert_eq.
  destruct (bool_decide (oldVersion < 5)); cbn [andb]; [|done].
  rewrite objectStore_put, Ok_bind. done.
Qed.

Lemma openDB_older db :
  db_version db < dbVersion →
  openDB true dbVersion upgrade db =
  match upgrade db (db_version db) with
  | Ok db' => Ok (mkDatabase dbVersion (db_stores db'))
  | Err _ => Err AbortError
  end.
Proof.
  intros Hv. unfold openDB. cbn [negb].
  rewrite decide_False, decide_True by lia. done.
Qed.

Lemma initDB_opens db :
  initDB true (mkWorld None db) =
  match openDB true dbVersion upgrade db with
  | Ok db' => (Fulfilled, mkWorld (Some Fulfilled) db')
  | Err x => (Rejected x, mkWorld (Some (Rejected x)) db)
  end.
Proof. done. Qed.

(** C8, as the code has it.  A database that this page created (the
    browser held none before) is, once opened, at version 5 and holds
    exactly one object store, ['apps'], keyed by ['id'] with a key
    generator, with exactly three indexes: ['uploadDate'], ['ownerId'] and
    ['category'].  Opening an older database succeeds and brings it to
    version 5; the upgrade keeps every other store, and for ['apps'] it
    keeps the records, the key options and the indexes it finds and only
    makes sure that an index called ['category'] exists (a missing store
    is created with the three indexes).  A database already at version 5
    is opened as it is. *)
Theorem opened_database_schema w :
  reachable any_app w → dbPromise w = Some Fulfilled →
  (∃ st, db_stores (database w) = {[ "apps" := st ]} ∧
         db_version (database w) = dbVersion ∧
         store_keyPath st = "id" ∧ store_autoIncrement st = true ∧
         store_indexes st
         = {[ "uploadDate" := "uploadDate"; "ownerId" := "ownerId";
              "category" := "category" ]} ∧
         dom (store_indexes st) = {[ "uploadDate"; "ownerId"; "category" ]}) ∧
  (∀ db, db_version db < dbVersion →
     ∃ db', openDB true dbVersion upgrade db = Ok db' ∧
       initDB true (mkWorld None db)
       = (Fulfilled, mkWorld (Some Fulfilled) db') ∧
       db_version db' = dbVersion ∧
       (∀ n, n ≠ "apps" → db_stores db' !! n = db_stores db !! n) ∧
       ∃ st, db_stores db' !! "apps" = Some st ∧
             is_Some (store_indexes st !! "category") ∧
             match db_stores db !! "apps" with
             | Some st0 =>
                 store_keyPath st = store_keyPath st0 ∧
                 store_autoIncrement st = store_autoIncrement st0 ∧
                 store_keygen st = store_keygen st0 ∧
                 store_records st = store_records st0 ∧
                 (∀ n kp, store_indexes st0 !! n = Some kp →
                          store_indexes st !! n = Some kp) ∧
                 (∀ n, n ≠ "category" →
                       store_indexes st !! n = store_indexes st0 !! n)
             | None => st = mkStore "id" true apps_indexes 1 ∅
             end) ∧
  (∀ db, db_version db = dbVersion →
     initDB true (mkWorld None db) = (Fulfilled, mkWorld (Some Fulfilled) db)).
Proof.
  intros Hw%reachable_ok Hp. split_and!.
  - destruct Hw as [[_ Hnone] | (st & Hdb & [Hkp Hai Hix _ _] & _)];
      [congruence|].
    exists st. rewrite Hdb, Hix. by split_and!.
  - intros db Hv. rewrite initDB_opens, (openDB_older _ Hv).
    destruct (db_stores db !! "apps") as [st0|] eqn:Hst.
    + rewrite (upgrade_existing _ _ _ Hst), bool_decide_eq_true_2 by done.
      cbn [andb].
      destruct (indexNames_contains st0 "category") eqn:Hc; cbn [negb].
      * apply bool_decide_eq_true_1 in Hc as [kp Hc].
        eexists. split_and!; try done. exists st0. by split_and!.
      * apply bool_decide_eq_false_1 in Hc.
        apply eq_None_not_Some in Hc.
        eexists. split_and!; try done.
        { intros n Hn. cbn. by rewrite lookup_insert_ne. }
        eexists. cbn. split; [apply lookup_insert_eq|]. cbn.
        split_and!; try done.
        { by rewrite lookup_insert_eq. }
        { intros n kp Hn. rewrite lookup_insert_ne; [done|]. congruence. }
        { intros n Hn. by rewrite lookup_insert_ne. }
    + rewrite (upgrade_missing _ _ Hst).
      eexists. split_and!; try done.
      { intros n Hn. cbn. by rewrite lookup_insert_ne. }
      eexists. cbn. split; [apply lookup_insert_eq|]. by split_and!.
  - intros db Hv. rewrite initDB_opens. unfold openDB. cbn [negb].
    rewrite decide_False, decide_False by lia. done.
Qed.

Lemma opened_database_schema_witness :
  reachable any_app sample_world ∧ dbPromise sample_world = Some Fulfilled ∧
  (∃ st, db_stores (database sample_world) = {[ "apps" := st ]} ∧
         db_version (database sample_world) = dbVersion ∧
         store_keyPath st = "id" ∧ store_autoIncrement st = true ∧
         store_indexes st
         = {[ "uploadDate" := "uploadDate"; "ownerId" := "ownerId";
              "category" := "category" ]} ∧
         dom (store_indexes st) = {[ "uploadDate"; "ownerId"; "category" ]}) ∧
  db_version older_database < dbVersion ∧
  ∃ db' st,
    initDB true (mkWorld None older_database)
    = (Fulfilled, mkWorld (Some Fulfilled) db') ∧
    db_version db' = dbVersion ∧
    db_stores db' !! "apps" = Some st ∧
    is_Some (store_indexes st !! "category") ∧
    store_indexes st !! "uploadDate" = None ∧
    store_indexes st !! "ownerId" = None.
Proof.
  assert (reachable any_app sample_world) as Hw.
  { apply (reachable_weaken App_typed); [done | apply sample_world_reachable]. }
  assert (dbPromise sample_world = Some Fulfilled) as Hp
    by (vm_compute; reflexivity).
  assert (db_version older_database < dbVersion) as Hv
    by (vm_compute; reflexivity).
  split; [exact Hw|]. split; [exact Hp|].
  destruct (opened_database_schema sample_world Hw Hp) as (Hnew & Hold & _).
  split; [exact Hnew|]. split; [exact Hv|].
  destruct (Hold older_database Hv)
    as (db' & _ & Hinit & Hver & _ & st & Hst & Hcat & Hkeep).
  exists db', st. split; [exact Hinit|]. split; [exact Hver|].
  split; [exact Hst|]. split; [exact Hcat|].
  assert (db_stores older_database !! "apps"
          = Some (mkStore "id" true ∅ 1 ∅)) as Hfound
    by (vm_compute; reflexivity).
  rewrite Hfound in Hkeep. destruct Hkeep as (_ & _ & _ & _ & _ & Hothers).
  split.
  - rewrite (Hothers "uploadDate"); [reflexivity | discriminate].
  - rewrite (Hothers "ownerId"); [reflexivity | discriminate].
Defined.

(** C8, as the claim has it, fails twice.  The store that [initDB] creates
    has a third index, ['ownerId'], so its indexes are not just the two on
    ['uploadDate'] and ['category'].  And the upgrade does not bring an
    older database to that schema: an older store ['apps'] without indexes
    comes out with the index on ['category'] alone. *)
Lemma opened_schema_is_not_the_claimed_one :
  (∃ st, db_stores (database (initDB true initial_world).2) !! "apps" = Some st ∧
         store_indexes st !! "ownerId" = Some "ownerId" ∧
         dom (store_indexes st) ≠ {[ "uploadDate"; "category" ]} ∧
         size (store_indexes st) = 3%nat) ∧
  db_version older_database < dbVersion ∧
  ∃ st, initDB true (mkWorld None older_database)
        = (Fulfilled,
           mkWorld (Some Fulfilled) (mkDatabase dbVersion {[ "apps" := st ]})) ∧
        store_indexes st = {[ "category" := "category" ]} ∧
        store_indexes st !! "uploadDate" = None ∧
        dom (store_indexes st) ≠ {[ "uploadDate"; "category" ]}.
Proof.
  split.
  - exists (mkStore "id" true apps_indexes 1 ∅).
    split_and!; [vm_compute; reflexivity | vm_compute; reflexivity
                | compute_done | vm_compute; reflexivity].
  - split; [vm_compute; reflexivity|].
    exists (mkStore "id" true {[ "category" := "category" ]} 1 ∅).
    split_and!; [vm_compute; reflexivity | reflexivity
                | vm_compute; reflexivity | compute_done].
Qed.

(** ** The cached promise *)

Lemma getDB_dbPromise e w :
  dbPromise (getDB e w).2 = None ∨ dbPromise (getDB e w).2 = Some Fulfilled.
Proof.
  unfold getDB, initDB.
  destruct (dbPromise w) as [[|y]|] eqn:Hp; simpl; auto.
  destruct (openDB e dbVersion upgrade (database w)); simpl; auto.
Qed.

Lemma operation_dbPromise e c w :
  is_operation c →
  dbPromise (exec e c w) = None ∨ dbPromise (exec e c w) = Some Fulfilled.
Proof.
  pose proof (getDB_dbPromise e w) as Hg.
  destruct c as [now app| |cat|k| | |]; simpl; try done; intros _.
  - unfold addApp. destruct (getDB e w) as [[[]|x] w1]; simpl in *; [|done].
    by destruct (db_add _ _ _) as [[k db']|y].
  - unfold getAllApps. by destruct (getDB e w) as [[[]|x] w1].
  - unfold getAppsByCategory. by destruct (getDB e w) as [[[]|x] w1].
  - unfold deleteApp. destruct (getDB e w) as [[[]|x] w1]; simpl in *; [|done].
    by destruct (db_delete _ _ _) as [db'|y].
Qed.

Lemma world_ok_dbPromise w :
  world_ok w → dbPromise w = None ∨ dbPromise w = Some Fulfilled.
Proof. intros [[_ ?] | (st & _ & _ & ?)]; auto. Qed.

(** C10.  Take any state of [dbPromise] and of the database.  When [getDB]
    fails, [dbPromise] is [null] afterwards and the database is as before,
    so the next [getDB] sends a new open request and its outcome is that
    request's outcome; in a world the page can reach it succeeds as soon as
    the engine answers.  None of the four operations ends with a rejected
    promise in [dbPromise], and no world the page can reach holds one. *)
Theorem getDB_failure_clears_dbPromise e w x w' :
  getDB e w = (Err x, w') →
  dbPromise w' = None ∧ database w' = database w ∧
  (∀ e', getDB e' w' =
         match openDB e' dbVersion upgrade (database w') with
         | Ok db' => (Ok (), mkWorld (Some Fulfilled) db')
         | Err y => (Err y, w')
         end) ∧
  (reachable any_app w → (getDB true w').1 = Ok ()) ∧
  (∀ e' c y, is_operation c → dbPromise (exec e' c w) ≠ Some (Rejected y)) ∧
  (∀ v y, reachable any_app v → dbPromise v ≠ Some (Rejected y)).
Proof.
  intros Hget.
  assert (dbPromise w' = None ∧ database w' = database w) as [Hp Hdb].
  { revert Hget. unfold getDB, initDB.
    destruct (dbPromise w) as [[|y]|]; simpl.
    - done.
    - by intros [= _ <-].
    - destruct (openDB e dbVersion upgrade (database w)); simpl; [done|].
      by intros [= _ <-]. }
  split_and!; try done.
  - intros e'. unfold getDB, initDB. rewrite Hp.
    destruct (openDB e' dbVersion upgrade (database w')); simpl; [done|].
    destruct w'; simpl in *. by subst.
  - intros Hw%reachable_ok.
    assert (world_ok w') as Hw'.
    { replace w' with (set_dbPromise None w).
      - by apply set_dbPromise_None_ok.
      - destruct w, w'; simpl in *. by subst. }
    by rewrite (getDB_eq _ _ Hw'), (world_ok_connects _ Hw').
  - intros e' c y Hc. by destruct (operation_dbPromise e' c w Hc) as [-> | ->].
  - intros v y Hv%reachable_ok. by destruct (world_ok_dbPromise v Hv) as [-> | ->].
Qed.

Lemma getDB_failure_clears_dbPromise_witness :
  getDB true (initDB false initial_world).2 = (Err UnknownError, initial_world) ∧
  dbPromise initial_world = None ∧
  database initial_world = database (initDB false initial_world).2 ∧
  (∀ e', getDB e' initial_world =
         match openDB e' dbVersion upgrade (database initial_world) with
         | Ok db' => (Ok (), mkWorld (Some Fulfilled) db')
         | Err y => (Err y, initial_world)
         end) ∧
  (reachable any_app (initDB false initial_world).2 →
   (getDB true initial_world).1 = Ok ()) ∧
  (∀ e' c y, is_operation c →
             dbPromise (exec e' c (initDB false initial_world).2)
             ≠ Some (Rejected y)) ∧
  (∀ v y, reachable any_app v → dbPromise v ≠ Some (Rejected y)).
Proof.
  assert (getDB true (initDB false initial_world).2
          = (Err UnknownError, initial_world)) as Hget by reflexivity.
  split; [exact Hget|].
  exact (getDB_failure_clears_dbPromise true (initDB false initial_world).2
           UnknownError initial_world Hget).
Defined.

(** ** Identifiers *)

Lemma keygen_exec e c w : world_ok w → keygen w ≤ keygen (exec e c w).
Proof.
  intros Hw. destruct c as [now app| |cat|k| | |]; simpl; try done.
  - destruct (addApp e now app w) as [[k|x] w'] eqn:Hadd; simpl.
    + by apply (addApp_Ok _ _ _ _ _ _ Hw) in Hadd as (_ & _ & _ & _ & ? & _).
    + apply (addApp_Err _ _ _ _ _ _ Hw) in Hadd as [_ ->]. done.
  - rewrite (getAllApps_eq _ _ Hw).
    destruct (connects e w); simpl; [by rewrite keygen_opened | done].
  - rewrite (getAppsByCategory_eq _ _ _ Hw).
    destruct (connects e w); simpl; [by rewrite keygen_opened | done].
  - rewrite (deleteApp_eq _ _ _ Hw).
    destruct (world_ok_the_store w Hw) as (_ & _ & Hg).
    destruct (connects e w); simpl; [|done].
    rewrite keygen_with_store. simpl. by rewrite Hg.
Qed.

Lemma generated_ids_from_keygen calls w :
  world_ok w →
  StronglySorted Z.lt (generated_ids calls w) ∧
  Forall (λ k, keygen w ≤ k) (generated_ids calls w).
Proof.
  revert w. induction calls as [|[e c] calls IH]; intros w Hw.
  { split; constructor. }
  destruct (IH _ (exec_ok e c w Hw)) as [Hsorted Hbound].
  pose proof (keygen_exec e c w Hw) as Hmono.
  assert (Forall (λ k, keygen w ≤ k) (generated_ids calls (exec e c w))) as Hb.
  { eapply Forall_impl; [exact Hbound|]. simpl. lia. }
  cbn [generated_ids].
  destruct c as [now app| |cat|k| | |]; try done.
  destruct (id app) eqn:Hid; [done|].
  simpl in *.
  destruct (addApp e now app w) as [[k|x] w'] eqn:Hadd; [|done].
  apply (addApp_Ok _ _ _ _ _ _ Hw) in Hadd as (_ & _ & _ & _ & _ & Hk).
  rewrite Hid in Hk. destruct Hk as [-> Hnext]. simpl in *.
  split.
  - constructor; [done|]. eapply Forall_impl; [exact Hbound|]. simpl. lia.
  - constructor; [lia | done].
Qed.

Lemma StronglySorted_lt_NoDup (l : list Z) : StronglySorted Z.lt l → NoDup l.
Proof.
  induction 1 as [|x l _ IH Hx]; constructor; [|done].
  rewrite Forall_forall in Hx. intros Hin%Hx. lia.
Qed.

(** C5, as the code has it.  Along any sequence of calls, the identifiers
    that the store generates (the results of the successful [addApp] calls
    whose record has no [id]) are strictly increasing in the order of the
    calls, hence pairwise distinct; deletions and records that bring their
    own [id] in between do not change that.  The first [addApp] of a record
    without [id] on a database that did not exist returns [1]. *)
Theorem generated_ids_strictly_increasing calls w :
  reachable any_app w →
  StronglySorted Z.lt (generated_ids calls w) ∧
  NoDup (generated_ids calls w) ∧
  (∀ now app, id app = None → (addApp true now app initial_world).1 = Ok 1).
Proof.
  intros Hw%reachable_ok.
  destruct (generated_ids_from_keygen calls w Hw) as [Hsorted _].
  split_and!; [done | by apply StronglySorted_lt_NoDup |].
  intros now app Hid.
  destruct (addApp_generates now app initial_world initial_world_ok Hid)
    as [w' ->]; [|done].
  unfold MAX_GENERATED. compute_done.
Qed.

Lemma generated_ids_strictly_increasing_witness :
  reachable any_app initial_world ∧
  generated_ids sample_trace initial_world = [1; 2; 3; 4] ∧
  StronglySorted Z.lt (generated_ids sample_trace initial_world) ∧
  NoDup (generated_ids sample_trace initial_world) ∧
  (∀ now app, id app = None → (addApp true now app initial_world).1 = Ok 1).
Proof.
  split; [constructor|]. split; [vm_compute; reflexivity|].
  exact (generated_ids_strictly_increasing sample_trace initial_world
           (reachable_initial any_app)).
Defined.

(** C5, as the claim has it, fails for records that bring an [id]: two
    successive calls return 5 and then 3; the first call on a database that
    did not exist returns 5, not 1; and after a deletion the same
    identifier is returned a second time. *)
Lemma addApp_returns_given_ids :
  (addApp true "2024-03-10T12:00:00.000Z" (sample_app_id 5 "Chess" "Games")
          initial_world).1 = Ok 5 ∧
  (addApp true "2024-03-10T12:00:01.000Z" (sample_app_id 3 "Go" "Games")
     (addApp true "2024-03-10T12:00:00.000Z" (sample_app_id 5 "Chess" "Games")
             initial_world).2).1 = Ok 3 ∧
  (addApp true "2024-03-10T12:00:02.000Z" (sample_app_id 5 "Chess" "Games")
     (deleteApp true 5
        (addApp true "2024-03-10T12:00:00.000Z" (sample_app_id 5 "Chess" "Games")
                initial_world).2).2).1 = Ok 5.
Proof. split_and!; vm_compute; reflexivity. Qed.

(** ** The order of [getAllApps] *)

Lemma stored_below_keygen w i a :
  world_ok w → stored w !! i = Some a → Z.min i MAX_GENERATED < keygen w.
Proof.
  intros Hw Ha. destruct (world_ok_the_store w Hw) as ([_ _ _ _ Hr] & Hs & Hg).
  rewrite <-Hs in Ha. rewrite <-Hg. by apply Hr in Ha as [_ ?].
Qed.

Lemma values_insert (m : gmap Z App) k r :
  m !! k = None → (map_to_list (<[k := r]> m)).*2 ≡ₚ r :: (map_to_list m).*2.
Proof. intros Hk. by rewrite map_to_list_insert. Qed.

Lemma filter_all {A} (P : A → Prop) `{∀ x, Decision (P x)} (l : list A) :
  (∀ x, x ∈ l → P x) → filter P l = l.
Proof.
  induction l as [|x l IH]; intros Hl; [done|].
  rewrite filter_cons, decide_True by (apply Hl; left).
  f_equal. apply IH. intros y Hy. apply Hl. by right.
Qed.

Lemma values_delete (m : gmap Z App) k :
  (∀ j v, m !! j = Some v → id v = Some j) →
  (map_to_list (delete k m)).*2
  ≡ₚ filter (λ a, id a ≠ Some k) (map_to_list m).*2.
Proof.
  intros Hid.
  assert (filter (λ a, id a ≠ Some k) (map_to_list (delete k m)).*2
          = (map_to_list (delete k m)).*2) as Hrest.
  { apply filter_all.
    intros a [[j v] [-> Hin%elem_of_map_to_list]]%list_elem_of_fmap. simpl.
    apply lookup_delete_Some in Hin as [Hne Hv].
    rewrite (Hid _ _ Hv). congruence. }
  destruct (m !! k) as [r|] eqn:Hk.
  - rewrite <-(insert_delete_id m k r Hk) at 2.
    rewrite values_insert by apply lookup_delete_eq.
    rewrite filter_cons, decide_False, Hrest; [done|].
    rewrite (Hid _ _ Hk). tauto.
  - rewrite <-Hrest at 1. by rewrite delete_id.
Qed.

Lemma all_by_uploadDate_sorted (recs : gmap Z App) :
  (∀ j v, recs !! j = Some v → id v = Some j) →
  StronglySorted upload_order (index_getAll "uploadDate" None recs).
Proof.
  intros Hid. unfold index_getAll.
  apply (StronglySorted_omap entry_le);
    [|apply StronglySorted_filter, index_records_sorted].
  intros x y a b [_ Hx]%list_elem_of_filter [_ Hy]%list_elem_of_filter Ha Hb.
  apply elem_of_index_records in Hx as (a' & Ha' & Hkx).
  apply elem_of_index_records in Hy as (b' & Hb' & Hky).
  simplify_eq. rewrite eval_keyPath_uploadDate in Hkx, Hky.
  injection Hkx as Hkx. injection Hky as Hky.
  intros [Hle Htie]. rewrite <-Hkx, <-Hky in Hle, Htie. simpl in *.
  split; [done|]. intros Heq. exists x.2, y.2.
  split_and!; [by apply Hid | by apply Hid |].
  apply Htie. by rewrite Heq.
Qed.

Lemma upload_order_antisymm (m : gmap Z App) a b :
  (∀ j v, m !! j = Some v → id v = Some j) →
  a ∈ (map_to_list m).*2 → b ∈ (map_to_list m).*2 →
  upload_order a b → upload_order b a → a = b.
Proof.
  intros Hid [[i a'] [-> Ha%elem_of_map_to_list]]%list_elem_of_fmap
              [[j b'] [-> Hb%elem_of_map_to_list]]%list_elem_of_fmap.
  simpl. intros [Hab Hab'] [Hba Hba'].
  assert (uploadDate a' = uploadDate b') as Heq
    by (by apply (anti_symm String.le)).
  destruct (Hab' Heq) as (i1 & j1 & Hi1 & Hj1 & Hle1).
  destruct (Hba' (eq_sym Heq)) as (j2 & i2 & Hj2 & Hi2 & Hle2).
  rewrite (Hid _ _ Ha) in Hi1, Hi2. rewrite (Hid _ _ Hb) in Hj1, Hj2.
  simplify_eq. assert (i1 = j1) as -> by lia. congruence.
Qed.

(** A call that leaves the records alone leaves the log alone. *)
Local Ltac keep_log :=
  match goal with
  | IH : ∀ w log, world_ok w → _, Hst : stored _ = stored _,
    Hclock : StronglySorted _ _, Hids : Forall _ _ |- _ =>
      apply IH; [done | by rewrite Hst | done | exact Hclock
                | by eauto | exact Hids]
  end.

(** The insertion log stays sorted by [uploadDate] (equal dates by [id])
    and holds the stored records, as long as the clock does not go back
    and the store generates the keys. *)
Lemma insertion_log_sorted calls : ∀ w log,
  world_ok w →
  log ≡ₚ (map_to_list (stored w)).*2 →
  StronglySorted upload_order log →
  StronglySorted String.le (clock_readings calls) →
  (∀ a t, a ∈ log → t ∈ clock_readings calls → String.le (uploadDate a) t) →
  Forall (λ app, id app = None) (added_apps calls) →
  insertion_log calls w log ≡ₚ (map_to_list (stored (run calls w))).*2 ∧
  StronglySorted upload_order (insertion_log calls w log).
Proof.
  induction calls as [|[e c] calls IH];
    intros w log Hw Hperm Hsorted Hclock Hbound Hids; [done|].
  pose proof (exec_ok e c w Hw) as Hw'.
  pose proof (stored_exec e c w Hw) as Hst.
  cbn [insertion_log run]. remember (exec e c w) as w1 eqn:Hw1.
  assert (∀ l : list App,
            (∀ a t, a ∈ l → t ∈ clock_readings ((e, c) :: calls) →
                    String.le (uploadDate a) t) →
            ∀ a t, a ∈ l → t ∈ clock_readings calls →
                   String.le (uploadDate a) t) as Hlater.
  { intros l Hl a t Ha Ht. apply Hl; [done|].
    unfold clock_readings. cbn [omap list_omap].
    destruct c; simpl; try done. by right. }
  destruct c as [now app| |cat|k| | |].
  - (* addApp *)
    unfold clock_readings, added_apps in Hclock, Hids, Hbound.
    cbn [omap list_omap snd] in Hclock, Hids, Hbound.
    fold (clock_readings calls) in Hclock, Hbound.
    fold (added_apps calls) in Hids.
    apply StronglySorted_cons in Hclock as [Hnow Hclock].
    apply Forall_cons in Hids as [Hid Hids].
    destruct (addApp e now app w) as [[k|x] w'] eqn:Hadd; simpl in Hst |- *.
    + destruct (addApp_Ok _ _ _ _ _ _ Hw Hadd) as (Hw2 & _ & Hnone & _ & _ & Hk).
      rewrite Hid in Hk. destruct Hk as [Hk Hnext].
      assert (keygen w ≤ MAX_GENERATED) as Hmax.
      { destruct (world_ok_the_store _ Hw2) as ([_ _ _ Hg _] & _ & Hg').
        rewrite Hg' in Hg. lia. }
      apply IH; try done.
      * rewrite Hst, values_insert by done. rewrite <-Hperm.
        symmetry. apply Permutation_cons_append.
      * apply StronglySorted_app_2; [|done|repeat constructor].
        intros a r Ha ->%list_elem_of_singleton. split; simpl.
        { apply Hbound; [done | left]. }
        intros _. rewrite Hperm in Ha.
        apply list_elem_of_fmap in Ha as [[i a'] [-> Ha%elem_of_map_to_list]].
        simpl. exists i, k. rewrite (stored_id _ _ _ Hw Ha).
        split_and!; try done.
        pose proof (stored_below_keygen _ _ _ Hw Ha). lia.
      * intros a t [Ha | ->%list_elem_of_singleton]%elem_of_app Ht.
        { apply Hbound; [done | by right]. }
        simpl. rewrite Forall_forall in Hnow. by apply Hnow.
    + apply IH; try done.
      * by rewrite Hst.
      * intros a t Ha Ht. apply Hbound; [done | by right].
  - keep_log.
  - keep_log.
  - (* deleteApp *)
    destruct (deleteApp e k w) as [[[]|x] w'] eqn:Hdel; simpl in Hst |- *.
    + apply IH; [done | | | exact Hclock | | exact Hids].
      * rewrite Hst, values_delete, Hperm; [done|].
        intros j v. by apply stored_id.
      * by apply StronglySorted_filter.
      * intros a t [_ Ha]%list_elem_of_filter Ht. by apply (Hlater log).
    + keep_log.
  - keep_log.
  - keep_log.
  - keep_log.
Qed.

Lemma run_app calls1 calls2 w :
  run (calls1 ++ calls2) w = run calls2 (run calls1 w).
Proof. revert w. induction calls1 as [|[e c] calls1 IH]; intros w; [done|]. apply IH. Qed.

(** The reachable worlds are the ends of the traces. *)
Lemma reachable_is_run w :
  reachable any_app w ↔ ∃ calls, w = run calls initial_world.
Proof.
  split.
  - induction 1 as [|e c w _ [calls ->] _]; [by exists []|].
    exists (calls ++ [(e, c)]). by rewrite run_app.
  - intros [calls ->]. apply reachable_run; [constructor|].
    apply Forall_forall. by intros [e []] _.
Qed.

(** C6, as the code has it.  In the world at the end of any sequence of
    calls, [getAllApps] succeeds when the engine opens the database, and
    its result holds every stored record exactly once, sorted by
    [uploadDate] ascending, records with equal [uploadDate] by [id]
    ascending.  That is the order of insertion whenever the clock readings
    of the successive [addApp] calls never decrease and the records were
    handed over without [id]. *)
Theorem getAllApps_lists_by_uploadDate calls :
  (∃ all, (getAllApps true (run calls initial_world)).1 = Ok all) ∧
  (∀ e all, (getAllApps e (run calls initial_world)).1 = Ok all →
     all ≡ₚ (map_to_list (stored (run calls initial_world))).*2 ∧
     StronglySorted upload_order all ∧
     (Sorted String.le (clock_readings calls) →
      Forall (λ app, id app = None) (added_apps calls) →
      all = insertion_log calls initial_world [])).
Proof.
  assert (world_ok (run calls initial_world)) as Hw.
  { apply (reachable_ok any_app), reachable_is_run. eauto. }
  split.
  - rewrite (getAllApps_eq _ _ Hw), (world_ok_connects _ Hw). simpl. eauto.
  - intros e all. rewrite (getAllApps_eq _ _ Hw).
    destruct (connects e _); simpl; [|done]. intros [= <-].
    pose proof (λ j v, stored_id _ j v Hw) as Hid.
    split_and!.
    + apply all_by_uploadDate_Permutation.
    + by apply all_by_uploadDate_sorted.
    + intros Hclock Hids.
      destruct (insertion_log_sorted calls initial_world [])
        as [Hperm Hsorted]; try done.
      { apply initial_world_ok. }
      { constructor. }
      { apply Sorted_StronglySorted; [apply _ | done]. }
      { intros a t Ha. by apply elem_of_nil in Ha. }
      apply (StronglySorted_unique_strong upload_order);
        [|by apply all_by_uploadDate_sorted|done|].
      * intros a b Ha Hb. rewrite all_by_uploadDate_Permutation in Ha.
        rewrite Hperm in Hb. by apply (upload_order_antisymm _ _ _ Hid).
      * by rewrite all_by_uploadDate_Permutation, Hperm.
Qed.

(** C6, as the claim has it, fails in its last part.  Two records that
    bring the identifiers 5 and 3 and are stamped with the same clock
    reading are listed as 3, 5, not in the order of insertion; and so are
    two records of which the second was stamped after the clock had been
    set back. *)
Lemma getAllApps_not_in_insertion_order :
  ((getAllApps true (run tie_trace initial_world)).1
   = Ok [ with_uploadDate "2024-03-10T12:00:00.000Z"
            (sample_app_id 3 "Go" "Games");
          with_uploadDate "2024-03-10T12:00:00.000Z"
            (sample_app_id 5 "Chess" "Games") ] ∧
   insertion_log tie_trace initial_world []
   = [ with_uploadDate "2024-03-10T12:00:00.000Z"
         (sample_app_id 5 "Chess" "Games");
       with_uploadDate "2024-03-10T12:00:00.000Z"
         (sample_app_id 3 "Go" "Games") ]) ∧
  ((getAllApps true (run clock_back_trace initial_world)).1
   = Ok [ with_uploadDate "2024-03-10T11:59:58.000Z"
            (sample_app_id 2 "Go" "Games");
          with_uploadDate "2024-03-10T12:00:00.000Z"
            (sample_app_id 1 "Chess" "Games") ] ∧
   insertion_log clock_back_trace initial_world []
   = [ with_uploadDate "2024-03-10T12:00:00.000Z"
         (sample_app_id 1 "Chess" "Games");
       with_uploadDate "2024-03-10T11:59:58.000Z"
         (sample_app_id 2 "Go" "Games") ]).
Proof. split_and!; vm_compute; reflexivity. Qed.

Lemma getAllApps_lists_by_uploadDate_witness :
  Sorted String.le (clock_readings sample_trace) ∧
  Forall (λ app, id app = None) (added_apps sample_trace) ∧
  (getAllApps true sample_world).1
  = Ok (insertion_log sample_trace initial_world []) ∧
  insertion_log sample_trace initial_world []
  = [ with_uploadDate "2024-03-10T12:00:00.000Z" (sample_app_id 1 "Chess" "Games");
      with_uploadDate "2024-03-10T12:00:01.500Z" (sample_app_id 3 "Go" "Games");
      with_uploadDate "2024-03-10T12:00:02.000Z" (sample_app_id 4 "Notes" "Tools") ].
Proof.
  assert (Sorted String.le (clock_readings sample_trace)) as Hclock
    by compute_done.
  assert (Forall (λ app, id app = None) (added_apps sample_trace)) as Hids
    by (repeat constructor).
  split; [exact Hclock|]. split; [exact Hids|].
  split; [|vm_compute; reflexivity].
  destruct (getAllApps_lists_by_uploadDate sample_trace) as [[all Hall] Hlist].
  destruct (Hlist true all Hall) as (_ & _ & Hlog).
  unfold sample_world. rewrite Hall. f_equal. by apply Hlog.
Defined.

(** * More about the store *)

(** ** Index records under insertion and deletion *)

Lemma index_entry_key keyPath r e : index_entry keyPath r = Some e → e.2 = r.1.
Proof.
  unfold index_entry. destruct (eval_keyPath keyPath r.2); simpl; [|done].
  by intros [= <-].
Qed.

Lemma omap_index_entry_keys keyPath (l : list (Z * App)) (Q : Z → Prop) e :
  (∀ r, r ∈ l → Q r.1) → e ∈ omap (index_entry keyPath) l → Q e.2.
Proof.
  intros Hl (r & Hr & He)%list_elem_of_omap.
  rewrite (index_entry_key _ _ _ He). by apply Hl.
Qed.

Lemma index_records_delete keyPath (recs : gmap Z App) k :
  index_records keyPath (delete k recs)
  = filter (λ e, e.2 ≠ k) (index_records keyPath recs).
Proof.
  apply (StronglySorted_unique entry_le).
  { apply index_records_sorted. }
  { apply StronglySorted_filter, index_records_sorted. }
  unfold index_records. rewrite !merge_sort_Permutation.
  assert (filter (λ e : IDBKey * Z, e.2 ≠ k)
            (omap (index_entry keyPath) (map_to_list (delete k recs)))
          = omap (index_entry keyPath) (map_to_list (delete k recs))) as Hrest.
  { apply filter_all. intros e He.
    apply (omap_index_entry_keys _ _ (λ j, j ≠ k) _) in He; [done|].
    intros [j v] [Hne _]%elem_of_map_to_list%lookup_delete_Some. done. }
  destruct (recs !! k) as [r|] eqn:Hk.
  - rewrite <-(insert_delete_id recs k r Hk) at 2.
    rewrite map_to_list_insert by apply lookup_delete_eq.
    cbn [omap list_omap].
    destruct (index_entry keyPath (k, r)) as [e|] eqn:He.
    + rewrite filter_cons, decide_False, Hrest; [done|].
      rewrite (index_entry_key _ _ _ He). simpl. tauto.
    + by rewrite Hrest.
  - rewrite <-Hrest. by rewrite delete_id.
Qed.

Lemma index_getAll_delete keyPath query (recs : gmap Z App) k :
  (∀ j v, recs !! j = Some v → id v = Some j) →
  index_getAll keyPath query (delete k recs)
  = filter (λ a, id a ≠ Some k) (index_getAll keyPath query recs).
Proof.
  intros Hid. unfold index_getAll. rewrite index_records_delete.
  induction (index_records keyPath recs) as [|e l IH]; [done|].
  rewrite !filter_cons.
  destruct (decide (e.2 ≠ k)) as [Hne|Heq].
  - rewrite filter_cons. destruct (decide (in_range query e)); [|exact IH].
    cbn [omap list_omap]. rewrite lookup_delete_ne by done.
    destruct (recs !! e.2) as [v|] eqn:Hv; [|exact IH].
    rewrite filter_cons, decide_True, IH; [done|].
    rewrite (Hid _ _ Hv). congruence.
  - apply dec_stable in Heq.
    destruct (decide (in_range query e)); [|exact IH].
    cbn [omap list_omap].
    destruct (recs !! e.2) as [v|] eqn:Hv; [|exact IH].
    rewrite filter_cons, decide_False, IH; [done|].
    rewrite (Hid _ _ Hv). intros Hne. apply Hne. by f_equal.
Qed.

(** An inserted record that does not have the queried key leaves the
    lookup as it was. *)
Lemma index_getAll_insert_other keyPath q (recs : gmap Z App) k r :
  recs !! k = None → eval_keyPath keyPath r ≠ Some q →
  index_getAll keyPath (Some q) (<[k := r]> recs)
  = index_getAll keyPath (Some q) recs.
Proof.
  intros Hk Hq. unfold index_getAll.
  assert (filter (in_range (Some q)) (index_records keyPath (<[k := r]> recs))
          = filter (in_range (Some q)) (index_records keyPath recs)) as ->.
  { apply (StronglySorted_unique entry_le);
      [apply StronglySorted_filter, index_records_sorted..|].
    unfold index_records. rewrite !merge_sort_Permutation.
    rewrite map_to_list_insert by done. cbn [omap list_omap].
    unfold index_entry at 1. simpl.
    destruct (eval_keyPath keyPath r) as [ik|] eqn:Hik; simpl; [|done].
    rewrite filter_cons, decide_False; [done|]. simpl. congruence. }
  apply list_omap_ext, Forall_Forall2_diag, Forall_forall.
  intros e [_ (v & Hv & _)%elem_of_index_records]%list_elem_of_filter.
  rewrite lookup_insert_ne; [done|]. congruence.
Qed.

(** ** Calls in general *)

Lemma call_exec e c w : (call e c w).2 = exec e c w.
Proof.
  destruct c as [now app| |cat|k| | |]; simpl; try done.
  - by destruct (addApp e now app w).
  - by destruct (getAllApps e w).
  - by destruct (getAppsByCategory e cat w).
  - by destruct (deleteApp e k w).
Qed.

Lemma connects_with_store e st : connects e (with_store st) = true.
Proof. done. Qed.

Lemma call_disconnected e c w :
  world_ok w → is_operation c → connects e w = false →
  call e c w = (OutErr UnknownError, w).
Proof.
  intros Hw Hc He. destruct c; simpl in *; try done.
  - by rewrite (addApp_eq _ _ _ _ Hw), He.
  - by rewrite (getAllApps_eq _ _ Hw), He.
  - by rewrite (getAppsByCategory_eq _ _ _ Hw), He.
  - by rewrite (deleteApp_eq _ _ _ Hw), He.
Qed.

Lemma opened_opened w : world_ok w → opened (opened w) = opened w.
Proof. intros _. unfold opened. by rewrite the_store_with_store. Qed.

Lemma connects_opened e w : connects e (opened w) = true.
Proof. done. Qed.

Lemma the_store_opened w : the_store (opened w) = the_store w.
Proof. unfold opened. by rewrite the_store_with_store. Qed.

Lemma call_connected e e' c w :
  world_ok w → is_operation c → connects e w = true →
  call e c w = call e' c (opened w).
Proof.
  intros Hw Hc He. pose proof (opened_ok _ Hw) as Hw'.
  destruct c; try done; cbn [call].
  - rewrite (addApp_eq _ _ _ _ Hw), (addApp_eq _ _ _ _ Hw'), He.
    by rewrite connects_opened, the_store_opened, (opened_opened _ Hw).
  - rewrite (getAllApps_eq _ _ Hw), (getAllApps_eq _ _ Hw'), He.
    by rewrite connects_opened, (stored_opened _ Hw), (opened_opened _ Hw).
  - rewrite (getAppsByCategory_eq _ _ _ Hw), (getAppsByCategory_eq _ _ _ Hw'), He.
    by rewrite connects_opened, (stored_opened _ Hw), (opened_opened _ Hw).
  - rewrite (deleteApp_eq _ _ _ Hw), (deleteApp_eq _ _ _ Hw'), He.
    by rewrite connects_opened, the_store_opened.
Qed.

Lemma store_add_error v st x :
  store_ok st → store_add v st = Err x → x = ConstraintError.
Proof.
  intros [_ Hai _ _ _]. unfold store_add. rewrite Hai. simpl.
  destruct (id v) as [j|]; simpl.
  - destruct (decide (is_Some (store_records st !! j))); simpl; congruence.
  - destruct (decide (MAX_GENERATED < store_keygen st)); simpl; [congruence|].
    destruct (decide (is_Some (store_records st !! store_keygen st))); simpl;
      congruence.
Qed.

(** A call that succeeds leaves the database open. *)
Lemma call_success_dbPromise e c w :
  world_ok w → is_operation c → (∀ x, (call e c w).1 ≠ OutErr x) →
  dbPromise (exec e c w) = Some Fulfilled.
Proof.
  intros Hw Hc Hok. destruct (connects e w) eqn:He.
  - rewrite <-call_exec. destruct c; simpl in *; try done.
    + rewrite (addApp_eq _ _ _ _ Hw), He.
      by destruct (store_add _ _) as [[k st']|x].
    + by rewrite (getAllApps_eq _ _ Hw), He.
    + by rewrite (getAppsByCategory_eq _ _ _ Hw), He.
    + by rewrite (deleteApp_eq _ _ _ Hw), He.
  - rewrite (call_disconnected _ _ _ Hw Hc He) in Hok. by destruct (Hok UnknownError).
Qed.

Lemma sample_world_reachable_any : reachable any_app sample_world.
Proof.
  apply (reachable_weaken App_typed); [done | apply sample_world_reachable].
Qed.

(** X1.  Once one of the four operations has succeeded, the database stays
    open: what any later operation returns and does no longer depends on
    how the engine would answer a new open request (none is sent), until
    [blocking] or [terminated] fires. *)
Theorem open_database_is_reused e c w :
  reachable any_app w → is_operation c →
  (∀ x, (call e c w).1 ≠ OutErr x) →
  ∀ e1 e2 c', call e1 c' (exec e c w) = call e2 c' (exec e c w).
Proof.
  intros Hw%reachable_ok Hc Hok e1 e2 c'.
  pose proof (call_success_dbPromise _ _ _ Hw Hc Hok) as Hp.
  pose proof (exec_ok e c w Hw) as Hw'.
  assert (is_operation c' ∨ ¬ is_operation c') as [Hc'|Hc']
    by (destruct c'; simpl; tauto); [|by destruct c'].
  rewrite (call_connected e1 true), (call_connected e2 true); try done;
    unfold connects; by rewrite Hp.
Qed.

Lemma open_database_is_reused_witness :
  reachable any_app initial_world ∧ is_operation CallGetAllApps ∧
  (∀ x, (call true CallGetAllApps initial_world).1 ≠ OutErr x) ∧
  ∀ e1 e2 c', call e1 c' (exec true CallGetAllApps initial_world)
              = call e2 c' (exec true CallGetAllApps initial_world).
Proof.
  assert (∀ x, (call true CallGetAllApps initial_world).1 ≠ OutErr x) as Hok
    by (intros x; vm_compute; discriminate).
  split; [constructor|]. split; [exact I|]. split; [exact Hok|].
  exact (open_database_is_reused true CallGetAllApps initial_world
           (reachable_initial any_app) I Hok).
Defined.

(** X2.  A call that fails leaves the stored records and the key
    generator as they were.  When it fails because the database could not
    be opened, the world is untouched and no promise is cached, so the
    next call asks the engine again; when it fails with the database open,
    the connection stays cached. *)
Theorem failed_call_changes_no_record e c w x :
  reachable any_app w → (call e c w).1 = OutErr x →
  stored (exec e c w) = stored w ∧ keygen (exec e c w) = keygen w ∧
  (connects e w = false → exec e c w = w ∧ dbPromise w = None) ∧
  (connects e w = true → dbPromise (exec e c w) = Some Fulfilled).
Proof.
  intros Hw%reachable_ok Hcall.
  assert (is_operation c) as Hc by (by destruct c).
  destruct (connects e w) eqn:He.
  - rewrite <-call_exec. revert Hcall.
    destruct c as [now app| |cat|k| | |]; try done; cbn [call].
    + rewrite (addApp_eq _ _ _ _ Hw), He.
      destruct (store_add _ _) as [[k st']|y] eqn:Hsa; [done|].
      simpl. intros _.
      rewrite (stored_opened _ Hw), (keygen_opened _ Hw).
      by split_and!.
    + by rewrite (getAllApps_eq _ _ Hw), He.
    + by rewrite (getAppsByCategory_eq _ _ _ Hw), He.
    + by rewrite (deleteApp_eq _ _ _ Hw), He.
  - rewrite <-call_exec, (call_disconnected _ _ _ Hw Hc He). simpl.
    split_and!; try done. intros _. split; [done|].
    unfold connects in He.
    destruct Hw as [[_ Hp] | (st & _ & _ & [Hp | Hp])]; try done.
    by rewrite Hp in He.
Qed.

Lemma failed_call_changes_no_record_witness :
  reachable any_app sample_world ∧
  (call true (CallAddApp "2024-03-10T12:30:00.000Z"
                (sample_app_id 3 "Chess" "Games")) sample_world).1
  = OutErr ConstraintError ∧
  stored (exec true (CallAddApp "2024-03-10T12:30:00.000Z"
                       (sample_app_id 3 "Chess" "Games")) sample_world)
  = stored sample_world ∧
  keygen (exec true (CallAddApp "2024-03-10T12:30:00.000Z"
                       (sample_app_id 3 "Chess" "Games")) sample_world)
  = keygen sample_world ∧
  dbPromise (exec true (CallAddApp "2024-03-10T12:30:00.000Z"
                          (sample_app_id 3 "Chess" "Games")) sample_world)
  = Some Fulfilled.
Proof.
  assert ((call true (CallAddApp "2024-03-10T12:30:00.000Z"
                        (sample_app_id 3 "Chess" "Games")) sample_world).1
          = OutErr ConstraintError) as Hcall by (vm_compute; reflexivity).
  split; [exact sample_world_reachable_any|]. split; [exact Hcall|].
  destruct (failed_call_changes_no_record true _ sample_world ConstraintError
              sample_world_reachable_any Hcall) as (Hs & Hg & _ & Hp).
  split; [exact Hs|]. split; [exact Hg|]. exact (Hp eq_refl).
Defined.

(** X3.  [addApp] needs an open database and a free key.  It is rejected
    with the world untouched when the database cannot be opened; with
    [ConstraintError] when the record brings an [id] that is already
    stored (the old record is kept, never overwritten); and with
    [ConstraintError] when it brings none and the key generator is
    exhausted.  So whenever [addApp] succeeds the database was opened and
    the key it returns was free: the [id] the record brought, or the next
    number of the generator, at most 2^53. *)
Theorem addApp_needs_a_free_key e now app w :
  reachable any_app w →
  (connects e w = false → addApp e now app w = (Err UnknownError, w)) ∧
  (connects e w = true →
     (∀ j v, id app = Some j → stored w !! j = Some v →
        ∃ w', addApp e now app w = (Err ConstraintError, w') ∧
              stored w' = stored w ∧ stored w' !! j = Some v) ∧
     (id app = None → MAX_GENERATED < keygen w →
        ∃ w', addApp e now app w = (Err ConstraintError, w') ∧
              stored w' = stored w ∧ keygen w' = keygen w)) ∧
  (∀ k w', addApp e now app w = (Ok k, w') →
     connects e w = true ∧
     match id app with
     | Some j => k = j ∧ stored w !! j = None
     | None => k = keygen w ∧ keygen w ≤ MAX_GENERATED
     end).
Proof.
  intros Hw%reachable_ok.
  destruct (world_ok_the_store w Hw) as (Hst & Hs & Hg).
  rewrite (addApp_eq _ _ _ _ Hw).
  pose proof (store_add_spec (with_uploadDate now app) _ Hst) as Hadd.
  destruct (connects e w); [|by split_and!].
  split; [done|].
  destruct (store_add _ _) as [[k st']|x] eqn:Hsa; simpl in Hadd.
  - destruct Hadd as ([_ _ _ Hg' _] & Hnone & _ & _ & Hk).
    rewrite Hs in Hnone. rewrite Hg in Hk. split.
    + intros _. split.
      * intros j v Hj Hv. rewrite Hj in Hk. subst k. congruence.
      * intros Hj Hmax. rewrite Hj in Hk. lia.
    + intros k' w' [= <- <-]. split; [done|].
      destruct (id app) as [j|]; [by subst|]. split; [lia|]. lia.
  - pose proof (store_add_error _ _ _ Hst Hsa) as ->.
    split; [|done]. intros _.
    split.
    + intros j v Hj Hv. eexists. split; [done|].
      rewrite (stored_opened _ Hw). done.
    + intros Hj Hmax. eexists. split; [done|].
      by rewrite (stored_opened _ Hw), (keygen_opened _ Hw).
Qed.

Lemma addApp_needs_a_free_key_witness :
  reachable any_app sample_world ∧
  connects true sample_world = true ∧
  ∃ w', addApp true "2024-03-10T12:30:00.000Z"
          (sample_app_id 3 "Chess" "Games") sample_world
        = (Err ConstraintError, w') ∧
        stored w' = stored sample_world ∧
        stored w' !! 3
        = Some (with_uploadDate "2024-03-10T12:00:01.500Z"
                  (sample_app_id 3 "Go" "Games")).
Proof.
  split; [exact sample_world_reachable_any|]. split; [reflexivity|].
  destruct (addApp_needs_a_free_key true "2024-03-10T12:30:00.000Z"
              (sample_app_id 3 "Chess" "Games") sample_world
              sample_world_reachable_any) as (_ & Htaken & _).
  destruct (Htaken eq_refl) as [Hkey _].
  apply (Hkey 3); [reflexivity | vm_compute; reflexivity].
Defined.

(** ** [initDB] called directly *)

(** X4.  [initDB] caches whatever the first open request gave: a second
    call changes nothing and returns the same promise.  After a rejected
    one, the next operation fails with the cached error even if the engine
    would now open the database, and clears the cache; the operation after
    that behaves as if the failed [initDB] had never been called. *)
Theorem initDB_caches_its_outcome e w :
  (∀ e', initDB e' (initDB e w).2 = initDB e w) ∧
  (∀ x, (initDB e w).1 = Rejected x →
     ∀ e' c, is_operation c →
       (call e' c (initDB e w).2).1 = OutErr x ∧
       exec e' c (initDB e w).2 = set_dbPromise None (initDB e w).2 ∧
       (reachable any_app w →
        ∀ c', is_operation c' →
          call true c' (exec e' c (initDB e w).2) = call true c' w)).
Proof.
  split.
  - intros e'. unfold initDB at 1 2.
    destruct (dbPromise w) as [p|] eqn:Hp; simpl.
    + unfold initDB. by rewrite Hp.
    + unfold initDB. rewrite Hp.
      by destruct (openDB e dbVersion upgrade (database w)).
  - intros x Hx e' c Hc.
    assert (dbPromise (initDB e w).2 = Some (Rejected x)
            ∧ database (initDB e w).2 = database w) as [Hp Hdb].
    { revert Hx. unfold initDB.
      destruct (dbPromise w) as [p|] eqn:Hp; simpl; [by intros ->|].
      destruct (openDB e dbVersion upgrade (database w)); simpl; [done|].
      by intros [= ->]. }
    assert (getDB e' (initDB e w).2
            = (Err x, set_dbPromise None (initDB e w).2)) as Hget.
    { unfold getDB, initDB at 1. by rewrite Hp. }
    assert ((call e' c (initDB e w).2).1 = OutErr x ∧
            exec e' c (initDB e w).2 = set_dbPromise None (initDB e w).2)
      as [Hcall Hexec].
    { rewrite <-call_exec.
      destruct c; try done; cbn [call];
        unfold addApp, getAllApps, getAppsByCategory, deleteApp;
        by rewrite Hget. }
    split_and!; try done.
    intros Hw%reachable_ok c' Hc'. rewrite Hexec.
    assert (set_dbPromise None (initDB e w).2 = set_dbPromise None w) as ->.
    { unfold set_dbPromise. by rewrite Hdb. }
    pose proof (set_dbPromise_None_ok _ Hw) as Hw0.
    pose proof (world_ok_connects _ Hw0) as Hc0.
    pose proof (world_ok_connects _ Hw) as Hc1.
    rewrite (call_connected true true _ _ Hw0 Hc' Hc0).
    by rewrite (call_connected true true _ _ Hw Hc' Hc1).
Qed.

(** ** Reading *)

(** X5.  A successful [getAllApps] or [getAppsByCategory] changes neither
    the stored records nor the key generator, and calling it again right
    away gives the same list, whatever the engine's state. *)
Theorem reads_change_no_record_and_repeat e c w l :
  reachable any_app w →
  c = CallGetAllApps ∨ (∃ cat, c = CallGetAppsByCategory cat) →
  (call e c w).1 = OutApps l →
  stored (exec e c w) = stored w ∧ keygen (exec e c w) = keygen w ∧
  ∀ e', call e' c (exec e c w) = (OutApps l, exec e c w).
Proof.
  intros Hw%reachable_ok Hc Hcall.
  assert (is_operation c) as Hop by (by destruct Hc as [-> | [cat ->]]).
  destruct (connects e w) eqn:He;
    [|by rewrite (call_disconnected _ _ _ Hw Hop He) in Hcall].
  assert (exec e c w = opened w) as Hexec.
  { rewrite <-call_exec. destruct Hc as [-> | [cat ->]]; cbn [call].
    - by rewrite (getAllApps_eq _ _ Hw), He.
    - by rewrite (getAppsByCategory_eq _ _ _ Hw), He. }
  rewrite Hexec, (stored_opened _ Hw), (keygen_opened _ Hw).
  split_and!; try done. intros e'.
  rewrite <-(call_connected e e' _ _ Hw Hop He).
  rewrite <-Hexec, <-call_exec, <-Hcall. by destruct (call e c w).
Qed.

Lemma reads_change_no_record_and_repeat_witness :
  reachable any_app sample_world ∧
  (call true (CallGetAppsByCategory "Games") sample_world).1
  = OutApps [ with_uploadDate "2024-03-10T12:00:00.000Z"
                (sample_app_id 1 "Chess" "Games");
              with_uploadDate "2024-03-10T12:00:01.500Z"
                (sample_app_id 3 "Go" "Games") ] ∧
  stored (exec true (CallGetAppsByCategory "Games") sample_world)
  = stored sample_world.
Proof.
  assert ((call true (CallGetAppsByCategory "Games") sample_world).1
          = OutApps [ with_uploadDate "2024-03-10T12:00:00.000Z"
                        (sample_app_id 1 "Chess" "Games");
                      with_uploadDate "2024-03-10T12:00:01.500Z"
                        (sample_app_id 3 "Go" "Games") ]) as Hcall
    by (vm_compute; reflexivity).
  split; [exact sample_world_reachable_any|]. split; [exact Hcall|].
  exact (proj1 (reads_change_no_record_and_repeat true
                  (CallGetAppsByCategory "Games") sample_world _
                  sample_world_reachable_any
                  (or_intror (ex_intro _ "Games" eq_refl)) Hcall)).
Defined.

Lemma NoDup_omap_index_entry keyPath (l : list (Z * App)) :
  NoDup l.*1 → NoDup (omap (index_entry keyPath) l).*2.
Proof.
  induction l as [|r l IH]; [constructor|].
  rewrite fmap_cons. intros [Hr Hl]%NoDup_cons. specialize (IH Hl).
  cbn [omap list_omap].
  destruct (index_entry keyPath r) as [e|] eqn:He; [|done].
  rewrite fmap_cons. constructor; [|done].
  rewrite (index_entry_key _ _ _ He).
  intros [e' [He' Hin]]%list_elem_of_fmap.
  apply list_elem_of_omap in Hin as (r' & Hr' & Hie).
  apply Hr, list_elem_of_fmap. exists r'. split; [|done].
  by rewrite He', (index_entry_key _ _ _ Hie).
Qed.

Lemma index_records_NoDup keyPath (recs : gmap Z App) :
  NoDup (index_records keyPath recs).*2.
Proof.
  unfold index_records. rewrite merge_sort_Permutation.
  apply NoDup_omap_index_entry, NoDup_fst_map_to_list.
Qed.

Lemma StronglySorted_strict {A} (R : relation A) (f : A → Z) (l : list A) :
  StronglySorted R l → NoDup (f <$> l) →
  StronglySorted (λ x y, R x y ∧ f x ≠ f y) l.
Proof.
  induction 1 as [|x l Hl IH Hx]; [constructor|].
  rewrite fmap_cons. intros [Hnin Hnd]%NoDup_cons.
  constructor; [by apply IH|].
  rewrite Forall_forall in Hx |- *. intros y Hy. split; [by apply Hx|].
  intros Heq. apply Hnin. rewrite Heq. by apply list_elem_of_fmap_2.
Qed.

Lemma by_category_sorted c (recs : gmap Z App) :
  (∀ j v, recs !! j = Some v → id v = Some j) →
  StronglySorted id_order (index_getAll "category" (Some (KStr c)) recs).
Proof.
  intros Hid. unfold index_getAll.
  apply (StronglySorted_omap (λ x y, entry_le x y ∧ x.2 ≠ y.2)).
  - intros x y a b [Hqx _]%list_elem_of_filter [Hqy _]%list_elem_of_filter
      Ha Hb [[_ Hle] Hne].
    simpl in Hqx, Hqy. exists x.2, y.2.
    split_and!; [by apply Hid | by apply Hid |].
    assert (x.2 ≤ y.2) by (apply Hle; rewrite Hqx, Hqy; reflexivity). lia.
  - apply StronglySorted_filter, StronglySorted_strict;
      [apply index_records_sorted | apply index_records_NoDup].
Qed.

Lemma all_by_uploadDate_NoDup (recs : gmap Z App) :
  (∀ j v, recs !! j = Some v → id v = Some j) →
  NoDup (id <$> index_getAll "uploadDate" None recs).
Proof.
  intros Hid. rewrite all_by_uploadDate_Permutation.
  assert (id <$> (map_to_list recs).*2 = Some <$> (map_to_list recs).*1) as ->.
  { rewrite <-!list_fmap_compose. apply list_fmap_ext.
    intros i [j v] Hin. apply list_elem_of_lookup_2, elem_of_map_to_list in Hin.
    simpl. by apply Hid. }
  apply NoDup_fmap_2; [apply _ | apply NoDup_fst_map_to_list].
Qed.

(** X6.  [getAllApps] never lists two records with the same [id], and it
    lists exactly the stored records, each under its key as [id];
    [getAppsByCategory] lists in strictly ascending [id] order. *)
Theorem listings_by_id e c w :
  reachable any_app w →
  (∀ all, (getAllApps e w).1 = Ok all →
     NoDup (id <$> all) ∧
     ∀ a, a ∈ all ↔ ∃ k, id a = Some k ∧ stored w !! k = Some a) ∧
  (∀ sel, (getAppsByCategory e c w).1 = Ok sel → StronglySorted id_order sel).
Proof.
  intros Hw%reachable_ok.
  pose proof (λ j v, stored_id _ j v Hw) as Hid.
  rewrite (getAllApps_eq _ _ Hw), (getAppsByCategory_eq _ _ _ Hw).
  destruct (connects e w); simpl; [|done]. split.
  - intros all [= <-]. split; [by apply all_by_uploadDate_NoDup|].
    intros a. rewrite elem_of_all_by_uploadDate. split.
    + intros [k Hk]. exists k. split; [by apply Hid | done].
    + intros (k & _ & Hk). eauto.
  - intros sel [= <-]. by apply by_category_sorted.
Qed.

Lemma listings_by_id_witness :
  reachable any_app sample_world ∧
  (∀ all, (getAllApps true sample_world).1 = Ok all →
     NoDup (id <$> all) ∧
     ∀ a, a ∈ all ↔ ∃ k, id a = Some k ∧ stored sample_world !! k = Some a) ∧
  (∀ sel, (getAppsByCategory true "Games" sample_world).1 = Ok sel →
     StronglySorted id_order sel).
Proof.
  split; [exact sample_world_reachable_any|].
  exact (listings_by_id true "Games" sample_world sample_world_reachable_any).
Defined.

(** ** Listing after a change *)

Lemma length_filter_id (l : list App) k r :
  filter (λ a, id a = Some k) l ≡ₚ [r] →
  length l = S (length (filter (λ a, id a ≠ Some k) l)).
Proof.
  intros Hone.
  rewrite <-(filter_app_complement (λ a, id a = Some k) l) at 1.
  by rewrite length_app, Hone.
Qed.

(** X7.  After a successful [deleteApp k], [getAllApps] and every
    [getAppsByCategory c] return the lists they returned before with the
    record of [id] [k] dropped and the order of the others kept; the full
    listing is one shorter when [k] was stored and unchanged when not. *)
Theorem listings_after_deleteApp e k w w' :
  reachable any_app w → deleteApp e k w = (Ok (), w') →
  ∃ all, (getAllApps true w).1 = Ok all ∧
    (∀ e', (getAllApps e' w').1 = Ok (filter (λ a, id a ≠ Some k) all)) ∧
    (∀ c, ∃ sel, (getAppsByCategory true c w).1 = Ok sel ∧
       ∀ e', (getAppsByCategory e' c w').1
             = Ok (filter (λ a, id a ≠ Some k) sel)) ∧
    length (filter (λ a, id a ≠ Some k) all)
    = match stored w !! k with
      | Some _ => pred (length all)
      | None => length all
      end.
Proof.
  intros Hw%reachable_ok Hdel.
  pose proof (λ j v, stored_id _ j v Hw) as Hid.
  destruct (deleteApp_Ok _ _ _ _ Hw Hdel) as (Hw' & Hp & Hrecs & _).
  assert (∀ e', connects e' w' = true) as Hc'
    by (intros e'; unfold connects; by rewrite Hp).
  exists (index_getAll "uploadDate" None (stored w)).
  rewrite (getAllApps_eq _ _ Hw), (world_ok_connects _ Hw).
  split_and!; [done| | |].
  - intros e'. rewrite (getAllApps_eq _ _ Hw'), Hc', Hrecs. simpl.
    by rewrite index_getAll_delete.
  - intros c. eexists.
    rewrite (getAppsByCategory_eq _ _ _ Hw), (world_ok_connects _ Hw).
    split; [done|]. intros e'.
    rewrite (getAppsByCategory_eq _ _ _ Hw'), Hc', Hrecs. simpl.
    by rewrite index_getAll_delete.
  - destruct (stored w !! k) as [r|] eqn:Hk.
    + rewrite (length_filter_id (index_getAll "uploadDate" None (stored w)) k r);
        [by simpl|].
      rewrite all_by_uploadDate_Permutation. by apply filter_id_stored.
    + f_equal. apply filter_all.
      intros a [j Hj]%elem_of_all_by_uploadDate.
      rewrite (Hid _ _ Hj). congruence.
Qed.

Lemma listings_after_deleteApp_witness :
  reachable any_app sample_world ∧
  deleteApp true 1 sample_world = (Ok (), (deleteApp true 1 sample_world).2) ∧
  ∃ all, (getAllApps true sample_world).1 = Ok all ∧
    (∀ e', (getAllApps e' (deleteApp true 1 sample_world).2).1
           = Ok (filter (λ a, id a ≠ Some 1) all)) ∧
    (∀ c, ∃ sel, (getAppsByCategory true c sample_world).1 = Ok sel ∧
       ∀ e', (getAppsByCategory e' c (deleteApp true 1 sample_world).2).1
             = Ok (filter (λ a, id a ≠ Some 1) sel)) ∧
    length (filter (λ a, id a ≠ Some 1) all)
    = match stored sample_world !! 1 with
      | Some _ => pred (length all)
      | None => length all
      end.
Proof.
  assert (deleteApp true 1 sample_world
          = (Ok (), (deleteApp true 1 sample_world).2)) as Hdel
    by (vm_compute; reflexivity).
  split; [exact sample_world_reachable_any|]. split; [exact Hdel|].
  exact (listings_after_deleteApp true 1 sample_world _
           sample_world_reachable_any Hdel).
Defined.

Lemma id_order_asymm a b : id_order a b → id_order b a → a = b.
Proof.
  intros (i & j & Hi & Hj & Hlt) (j' & i' & Hj' & Hi' & Hlt').
  simplify_eq. lia.
Qed.

Lemma generated_key_above e now app w k w' :
  world_ok w → addApp e now app w = (Ok k, w') → id app = None →
  ∀ i a, stored w !! i = Some a → i < k.
Proof.
  intros Hw Hadd Hid i a Ha.
  destruct (addApp_Ok _ _ _ _ _ _ Hw Hadd) as (Hw' & _ & _ & _ & _ & Hk).
  rewrite Hid in Hk. destruct Hk as [-> Hnext].
  destruct (world_ok_the_store _ Hw') as ([_ _ _ Hg _] & _ & Hg').
  rewrite Hg' in Hg. pose proof (stored_below_keygen _ _ _ Hw Ha). lia.
Qed.

(** X8.  After a successful [addApp], the full listing and the listing of
    the record's category hold the new record besides the old ones, and
    the listing of every other category is unchanged.  When the store
    generated the [id] the record comes last in its category listing, and
    last in the full listing too if no stored record is stamped later
    than it. *)
Theorem listings_after_addApp e now app w k w' :
  reachable any_app w → addApp e now app w = (Ok k, w') →
  ∃ all sel,
    (getAllApps true w).1 = Ok all ∧
    (getAppsByCategory true (category app) w).1 = Ok sel ∧
    ∀ e', ∃ all' sel',
      (getAllApps e' w').1 = Ok all' ∧
      (getAppsByCategory e' (category app) w').1 = Ok sel' ∧
      all' ≡ₚ with_id k (with_uploadDate now app) :: all ∧
      sel' ≡ₚ with_id k (with_uploadDate now app) :: sel ∧
      (∀ c, c ≠ category app →
         (getAppsByCategory e' c w').1 = (getAppsByCategory true c w).1) ∧
      (id app = None →
         sel' = sel ++ [with_id k (with_uploadDate now app)] ∧
         ((∀ a, a ∈ all → String.le (uploadDate a) now) →
          all' = all ++ [with_id k (with_uploadDate now app)])).
Proof.
  intros Hw%reachable_ok Hadd.
  set (r := with_id k (with_uploadDate now app)).
  pose proof (λ j v, stored_id _ j v Hw) as Hid.
  destruct (addApp_Ok _ _ _ _ _ _ Hw Hadd) as (Hw' & Hp & Hnone & Hrecs & _).
  pose proof (λ j v, stored_id _ j v Hw') as Hid'.
  assert (∀ e', connects e' w' = true) as Hc'
    by (intros e'; unfold connects; by rewrite Hp).
  exists (index_getAll "uploadDate" None (stored w)),
         (index_getAll "category" (Some (KStr (category app))) (stored w)).
  rewrite (getAllApps_eq _ _ Hw), (getAppsByCategory_eq _ _ _ Hw),
    (world_ok_connects _ Hw).
  split_and!; [done..|]. intros e'.
  exists (index_getAll "uploadDate" None (stored w')),
         (index_getAll "category" (Some (KStr (category app))) (stored w')).
  rewrite (getAllApps_eq _ _ Hw'), (getAppsByCategory_eq _ _ _ Hw'), Hc'.
  assert (index_getAll "uploadDate" None (stored w')
          ≡ₚ r :: index_getAll "uploadDate" None (stored w)) as Hall.
  { by rewrite !all_by_uploadDate_Permutation, Hrecs, values_insert. }
  assert (index_getAll "category" (Some (KStr (category app))) (stored w')
          ≡ₚ r :: index_getAll "category" (Some (KStr (category app))) (stored w))
    as Hsel.
  { rewrite !by_category_Permutation, Hrecs, values_insert by done.
    by rewrite filter_cons, decide_True. }
  split_and!; try done.
  - intros c Hc. rewrite (getAppsByCategory_eq _ _ _ Hw'), Hc'.
    rewrite (getAppsByCategory_eq _ _ _ Hw), (world_ok_connects _ Hw). simpl.
    f_equal. rewrite Hrecs. apply index_getAll_insert_other; [done|].
    rewrite eval_keyPath_category. simpl. congruence.
  - intros Hnoid.
    pose proof (generated_key_above _ _ _ _ _ _ Hw Hadd Hnoid) as Hk.
    split.
    + apply (StronglySorted_unique_strong id_order).
      * intros a b _ _. apply id_order_asymm.
      * by apply by_category_sorted.
      * apply StronglySorted_app_2;
          [|by apply by_category_sorted|repeat constructor].
        intros a ? Ha ->%list_elem_of_singleton.
        rewrite by_category_Permutation in Ha.
        apply list_elem_of_filter in Ha as [_ Ha].
        apply list_elem_of_fmap in Ha as [[i a'] [-> Ha%elem_of_map_to_list]].
        exists i, k. split_and!; [by apply Hid | done | by apply (Hk i a')].
      * rewrite Hsel. apply Permutation_cons_append.
    + intros Hnow.
      apply (StronglySorted_unique_strong upload_order).
      * intros a b Ha Hb. rewrite all_by_uploadDate_Permutation in Ha.
        rewrite <-Permutation_cons_append, <-Hall,
          all_by_uploadDate_Permutation in Hb.
        by apply (upload_order_antisymm _ _ _ Hid').
      * by apply all_by_uploadDate_sorted.
      * apply StronglySorted_app_2;
          [|by apply all_by_uploadDate_sorted|repeat constructor].
        intros a ? Ha ->%list_elem_of_singleton. split; [by apply Hnow|].
        intros _. apply elem_of_all_by_uploadDate in Ha as [i Ha].
        exists i, k. split_and!; [by apply Hid | done |].
        specialize (Hk i a Ha). lia.
      * rewrite Hall. apply Permutation_cons_append.
Qed.

Lemma listings_after_addApp_witness :
  reachable any_app sample_world ∧
  addApp true "2024-03-10T12:30:00.000Z" (sample_app "Chess" "Games")
         sample_world
  = (Ok 5, (addApp true "2024-03-10T12:30:00.000Z"
              (sample_app "Chess" "Games") sample_world).2) ∧
  ∃ all sel,
    (getAllApps true sample_world).1 = Ok all ∧
    (getAppsByCategory true "Games" sample_world).1 = Ok sel ∧
    ∃ sel',
      (getAppsByCategory true "Games"
         (addApp true "2024-03-10T12:30:00.000Z"
            (sample_app "Chess" "Games") sample_world).2).1 = Ok sel' ∧
      sel' = sel ++ [with_id 5 (with_uploadDate "2024-03-10T12:30:00.000Z"
                                  (sample_app "Chess" "Games"))].
Proof.
  assert (addApp true "2024-03-10T12:30:00.000Z" (sample_app "Chess" "Games")
            sample_world
          = (Ok 5, (addApp true "2024-03-10T12:30:00.000Z"
                      (sample_app "Chess" "Games") sample_world).2)) as Hadd
    by (vm_compute; reflexivity).
  split; [exact sample_world_reachable_any|]. split; [exact Hadd|].
  destruct (listings_after_addApp true _ _ sample_world 5 _
              sample_world_reachable_any Hadd)
    as (all & sel & Hall & Hsel & Hafter).
  exists all, sel. split; [exact Hall|]. split; [exact Hsel|].
  destruct (Hafter true) as (all' & sel' & _ & Hsel' & _ & _ & _ & Hlast).
  exists sel'. split; [exact Hsel'|]. exact (proj1 (Hlast eq_refl)).
Defined.

(** ** Deleting again *)

Lemma store_delete_delete k j st :
  store_delete k (store_delete j st) = store_delete j (store_delete k st).
Proof. unfold store_delete. simpl. by rewrite delete_delete. Qed.

Lemma store_delete_twice k st :
  store_delete k (store_delete k st) = store_delete k st.
Proof.
  unfold store_delete. simpl. f_equal. apply delete_id, lookup_delete_eq.
Qed.

(** X9.  Deleting twice is deleting once: after a successful
    [deleteApp k] a second one succeeds and changes nothing; and two
    deletions reach the same world in either order. *)
Theorem deleteApp_idempotent_and_commutes e k w w' :
  reachable any_app w → deleteApp e k w = (Ok (), w') →
  (∀ e', deleteApp e' k w' = (Ok (), w')) ∧
  (∀ j e1 e2,
     (deleteApp e1 j w').2 = (deleteApp e2 k (deleteApp true j w).2).2).
Proof.
  intros Hw%reachable_ok Hdel.
  destruct (deleteApp_Ok _ _ _ _ Hw Hdel) as (Hw' & Hp & _).
  assert (∀ e', connects e' w' = true) as Hc'
    by (intros e'; unfold connects; by rewrite Hp).
  revert Hdel. rewrite (deleteApp_eq _ _ _ Hw).
  destruct (connects e w); [|done]. intros [= <-]. split.
  - intros e'. rewrite (deleteApp_eq _ _ _ Hw'), Hc'.
    by rewrite the_store_with_store, store_delete_twice.
  - intros j e1 e2. rewrite (deleteApp_eq _ _ _ Hw'), Hc'. simpl.
    rewrite (deleteApp_eq _ _ _ Hw), (world_ok_connects _ Hw). simpl.
    rewrite deleteApp_eq
      by (apply with_store_ok, store_delete_ok; by apply world_ok_the_store).
    rewrite connects_with_store. simpl.
    by rewrite !the_store_with_store, store_delete_delete.
Qed.

Lemma deleteApp_idempotent_and_commutes_witness :
  reachable any_app sample_world ∧
  deleteApp true 1 sample_world = (Ok (), (deleteApp true 1 sample_world).2) ∧
  (∀ e', deleteApp e' 1 (deleteApp true 1 sample_world).2
         = (Ok (), (deleteApp true 1 sample_world).2)) ∧
  (∀ j e1 e2,
     (deleteApp e1 j (deleteApp true 1 sample_world).2).2
     = (deleteApp e2 1 (deleteApp true j sample_world).2).2).
Proof.
  assert (deleteApp true 1 sample_world
          = (Ok (), (deleteApp true 1 sample_world).2)) as Hdel
    by (vm_compute; reflexivity).
  split; [exact sample_world_reachable_any|]. split; [exact Hdel|].
  exact (deleteApp_idempotent_and_commutes true 1 sample_world _
           sample_world_reachable_any Hdel).
Defined.

(** ** The key generator at its end *)

Lemma keygen_run calls w :
  world_ok w → world_ok (run calls w) ∧ keygen w ≤ keygen (run calls w).
Proof.
  revert w. induction calls as [|[e c] calls IH]; intros w Hw; [done|].
  destruct (IH _ (exec_ok e c w Hw)) as [Hok Hle]. split; [done|].
  pose proof (keygen_exec e c w Hw). simpl. lia.
Qed.

Lemma world_ok_keygen w : world_ok w → 1 ≤ keygen w ≤ MAX_GENERATED + 1.
Proof.
  intros Hw. destruct (world_ok_the_store w Hw) as ([_ _ _ Hg _] & _ & Hg').
  by rewrite <-Hg'.
Qed.

(** X10.  A record that brings an [id] of 2^53 or more exhausts the key
    generator: after its [addApp] succeeded, no later sequence of calls
    generates an identifier, and every [addApp] of a record without [id]
    fails ([ConstraintError] when the database is open). *)
Theorem large_id_ends_generation e now app j w k w' :
  reachable any_app w → id app = Some j → MAX_GENERATED ≤ j →
  addApp e now app w = (Ok k, w') →
  ∀ calls,
    generated_ids calls w' = [] ∧
    ∀ e' now' app', id app' = None →
      (addApp e' now' app' (run calls w')).1
      = Err (if connects e' (run calls w') then ConstraintError
             else UnknownError).
Proof.
  intros Hw%reachable_ok Hid Hj Hadd.
  destruct (addApp_Ok _ _ _ _ _ _ Hw Hadd) as (Hw' & _ & _ & Hrecs & _ & Hk).
  rewrite Hid in Hk. subst k.
  assert (keygen w' = MAX_GENERATED + 1) as Hfull.
  { pose proof (world_ok_keygen _ Hw').
    assert (stored w' !! j = Some (with_id j (with_uploadDate now app))) as Hs
      by (by rewrite Hrecs, lookup_insert_eq).
    pose proof (stored_below_keygen _ _ _ Hw' Hs). lia. }
  assert (∀ calls, world_ok (run calls w') ∧
                   keygen (run calls w') = MAX_GENERATED + 1) as Hrun.
  { intros calls. destruct (keygen_run calls w' Hw') as [Hok Hle].
    split; [done|]. pose proof (world_ok_keygen _ Hok). lia. }
  assert (∀ v e' now' app', world_ok v → keygen v = MAX_GENERATED + 1 →
            id app' = None →
            (addApp e' now' app' v).1
            = Err (if connects e' v then ConstraintError else UnknownError))
    as Hfail.
  { intros v e' now' app' Hv Hg Hnone. rewrite (addApp_eq _ _ _ _ Hv).
    destruct (connects e' v); [|done].
    destruct (world_ok_the_store v Hv) as (Hst & _ & Hg').
    pose proof (store_add_spec (with_uploadDate now' app') _ Hst) as Hspec.
    destruct (store_add _ _) as [[k st']|x] eqn:Hsa; simpl in Hspec |- *.
    - rewrite Hnone in Hspec.
      destruct Hspec as ([_ _ _ Hbound _] & _ & _ & _ & Hk & Hnext). lia.
    - by rewrite (store_add_error _ _ _ Hst Hsa). }
  intros calls. split;
    [|intros e' now' app' Hnone; destruct (Hrun calls); by apply Hfail].
  clear Hadd Hrecs. revert w' Hw' Hfull Hrun.
  induction calls as [|[e1 c] calls IH]; intros v Hv Hfull Hrun; [done|].
  cbn [generated_ids].
  rewrite (IH (exec e1 c v)).
  - destruct c as [now1 app1| | | | | |]; try done.
    destruct (id app1) eqn:Hid1; [done|].
    by rewrite (Hfail v e1 now1 app1 Hv Hfull Hid1).
  - by apply exec_ok.
  - apply (Hrun [(e1, c)]).
  - intros calls'. apply (Hrun ((e1, c) :: calls')).
Qed.

Lemma large_id_ends_generation_witness :
  reachable any_app initial_world ∧
  id (sample_app_id (2 ^ 53) "Chess" "Games") = Some (2 ^ 53) ∧
  MAX_GENERATED ≤ 2 ^ 53 ∧
  addApp true "2024-03-10T12:00:00.000Z" (sample_app_id (2 ^ 53) "Chess" "Games")
         initial_world
  = (Ok (2 ^ 53),
     (addApp true "2024-03-10T12:00:00.000Z"
        (sample_app_id (2 ^ 53) "Chess" "Games") initial_world).2) ∧
  ∀ calls,
    generated_ids calls
      (addApp true "2024-03-10T12:00:00.000Z"
         (sample_app_id (2 ^ 53) "Chess" "Games") initial_world).2 = [] ∧
    ∀ e' now' app', id app' = None →
      (addApp e' now' app'
         (run calls
            (addApp true "2024-03-10T12:00:00.000Z"
               (sample_app_id (2 ^ 53) "Chess" "Games") initial_world).2)).1
      = Err (if connects e'
                  (run calls
                     (addApp true "2024-03-10T12:00:00.000Z"
                        (sample_app_id (2 ^ 53) "Chess" "Games")
                        initial_world).2)
             then ConstraintError else UnknownError).
Proof.
  assert (addApp true "2024-03-10T12:00:00.000Z"
            (sample_app_id (2 ^ 53) "Chess" "Games") initial_world
          = (Ok (2 ^ 53),
             (addApp true "2024-03-10T12:00:00.000Z"
                (sample_app_id (2 ^ 53) "Chess" "Games") initial_world).2))
    as Hadd by (vm_compute; reflexivity).
  assert (MAX_GENERATED ≤ 2 ^ 53) as Hj by (unfold MAX_GENERATED; lia).
  split; [constructor|]. split; [reflexivity|]. split; [exact Hj|].
  split; [exact Hadd|].
  exact (large_id_ends_generation true "2024-03-10T12:00:00.000Z"
           (sample_app_id (2 ^ 53) "Chess" "Games") (2 ^ 53) initial_world
           (2 ^ 53) _ (reachable_initial any_app) eq_refl Hj Hadd).
Defined.

(** ** Opening: other databases, other pages *)

Lemma getDB_closed_failure e db x :
  openDB e dbVersion upgrade db = Err x →
  getDB e (mkWorld None db) = (Err x, mkWorld None db).
Proof. intros Hopen. unfold getDB, initDB. simpl. by rewrite Hopen. Qed.

Lemma call_getDB_failure e c w x :
  is_operation c → getDB e w = (Err x, w) → call e c w = (OutErr x, w).
Proof.
  intros Hc Hget. destruct c; try done; cbn [call];
    unfold addApp, getAllApps, getAppsByCategory, deleteApp; by rewrite Hget.
Qed.

(** X11.  When the browser holds the database at a version above 5, each
    of the four operations is rejected ([VersionError] once the engine
    answers) and nothing changes, the cached promise included, so every
    call asks again. *)
Theorem newer_database_rejects_every_call e c db :
  dbVersion < db_version db → is_operation c →
  call e c (mkWorld None db)
  = (OutErr (if e then VersionError else UnknownError), mkWorld None db).
Proof.
  intros Hv Hc. apply call_getDB_failure, getDB_closed_failure; [done|].
  unfold openDB. destruct e; simpl; [|done].
  by rewrite decide_True.
Qed.

Lemma newer_database_rejects_every_call_witness :
  dbVersion < db_version (mkDatabase 6 ∅) ∧ is_operation CallGetAllApps ∧
  call true CallGetAllApps (mkWorld None (mkDatabase 6 ∅))
  = (OutErr VersionError, mkWorld None (mkDatabase 6 ∅)).
Proof.
  assert (dbVersion < db_version (mkDatabase 6 ∅)) as Hv by (vm_compute; reflexivity).
  split; [exact Hv|]. split; [exact I|].
  exact (newer_database_rejects_every_call true CallGetAllApps
           (mkDatabase 6 ∅) Hv I).
Defined.

(** X12.  The page keeps nothing of the database but the connection:
    after [terminated] has cleared the cached promise, and in a new page
    on the same database, every operation returns and does what it would
    have done with the connection kept, provided the engine opens the
    database as it was. *)
Theorem reopening_finds_the_same_store c w :
  reachable any_app w → is_operation c →
  call true c (terminated w) = call true c w ∧
  call true c (mkWorld None (database w)) = call true c w ∧
  stored (terminated w) = stored w ∧ keygen (terminated w) = keygen w.
Proof.
  intros Hw%reachable_ok Hc.
  assert (call true c (set_dbPromise None w) = call true c w) as Heq.
  { pose proof (set_dbPromise_None_ok _ Hw) as Hw0.
    rewrite (call_connected true true _ _ Hw0 Hc (world_ok_connects _ Hw0)).
    by rewrite (call_connected true true _ _ Hw Hc (world_ok_connects _ Hw)). }
  by split_and!.
Qed.

Lemma reopening_finds_the_same_store_witness :
  reachable any_app sample_world ∧ is_operation (CallDeleteApp 3) ∧
  call true (CallDeleteApp 3) (terminated sample_world)
  = call true (CallDeleteApp 3) sample_world ∧
  call true (CallDeleteApp 3) (mkWorld None (database sample_world))
  = call true (CallDeleteApp 3) sample_world.
Proof.
  split; [exact sample_world_reachable_any|]. split; [exact I|].
  destruct (reopening_finds_the_same_store (CallDeleteApp 3) sample_world
              sample_world_reachable_any I) as (Ht & Hn & _).
  split; [exact Ht | exact Hn].
Defined.

Lemma indexNames_contains_insert p a ix g r n keyPath :
  indexNames_contains (mkStore p a (<[n := keyPath]> ix) g r) n = true.
Proof.
  unfold indexNames_contains. simpl.
  apply bool_decide_eq_true_2. by rewrite lookup_insert_eq.
Qed.

(** X13.  The [upgrade] callback never throws, whatever database and old
    version it is given; it keeps the version, every store's records and
    key generator; and running it again on its result changes nothing. *)
Theorem upgrade_succeeds_and_settles db oldVersion :
  ∃ db', upgrade db oldVersion = Ok db' ∧
    upgrade db' oldVersion = Ok db' ∧
    (oldVersion < 5 → ∀ v, upgrade db' v = Ok db') ∧
    db_version db' = db_version db ∧
    (∀ n st, db_stores db !! n = Some st →
       ∃ st', db_stores db' !! n = Some st' ∧
              store_records st' = store_records st ∧
              store_keygen st' = store_keygen st).
Proof.
  destruct (db_stores db !! "apps") as [st0|] eqn:Hst.
  - rewrite (upgrade_existing _ _ _ Hst).
    destruct (bool_decide (oldVersion < 5)
              && negb (indexNames_contains st0 "category")) eqn:Hcond.
    + apply andb_prop in Hcond as [Hold%bool_decide_eq_true_1 Hc].
      eexists. split; [done|].
      assert (∀ v, upgrade
                     (put_store "apps"
                        (mkStore (store_keyPath st0) (store_autoIncrement st0)
                           (<["category" := "category"]> (store_indexes st0))
                           (store_keygen st0) (store_records st0)) db) v
                   = Ok (put_store "apps"
                        (mkStore (store_keyPath st0) (store_autoIncrement st0)
                           (<["category" := "category"]> (store_indexes st0))
                           (store_keygen st0) (store_records st0)) db)) as Hagain.
      { intros v. erewrite upgrade_existing by apply lookup_insert_eq.
        by rewrite indexNames_contains_insert, andb_false_r. }
      split_and!; try done.
      intros n st Hn. destruct (decide (n = "apps")) as [->|Hne].
      * rewrite Hst in Hn. injection Hn as <-. eexists.
        split; [apply lookup_insert_eq | done].
      * exists st. split; [|done]. cbn. by rewrite lookup_insert_ne.
    + exists db. split; [done|].
      assert (upgrade db oldVersion = Ok db) as Hsame
        by (by rewrite (upgrade_existing _ _ _ Hst), Hcond).
      split_and!; try done; [|by eauto].
      intros Hold v. rewrite (upgrade_existing _ _ _ Hst).
      rewrite bool_decide_eq_true_2 in Hcond by done. simpl in Hcond.
      by rewrite Hcond, andb_false_r.
  - rewrite (upgrade_missing _ _ Hst). eexists. split; [done|].
    assert (∀ v, upgrade (put_store "apps" (mkStore "id" true apps_indexes 1 ∅) db) v
                 = Ok (put_store "apps" (mkStore "id" true apps_indexes 1 ∅) db))
      as Hagain.
    { intros v. erewrite upgrade_existing by apply lookup_insert_eq.
      by rewrite andb_false_r. }
    split_and!; try done.
    intros n st Hn. exists st. split; [|done]. cbn.
    rewrite lookup_insert_ne; [done|]. intros <-. congruence.
Qed.

(** The database after opening an older one that has a store ['apps']. *)
Lemma openDB_older_existing db st :
  db_version db < dbVersion → db_stores db !! "apps" = Some st →
  ∃ st', openDB true dbVersion upgrade db
         = Ok (mkDatabase dbVersion (<["apps" := st']> (db_stores db))) ∧
         store_records st' = store_records st ∧
         is_Some (store_indexes st' !! "category") ∧
         ∀ n, n ≠ "category" → store_indexes st' !! n = store_indexes st !! n.
Proof.
  intros Hv Hst. rewrite (openDB_older _ Hv), (upgrade_existing _ _ _ Hst).
  rewrite bool_decide_eq_true_2 by done. cbn [andb].
  destruct (indexNames_contains st "category") eqn:Hc; cbn [negb].
  - exists st. rewrite insert_id by done.
    apply bool_decide_eq_true_1 in Hc. by destruct db.
  - eexists. split; [done|]. cbn. split_and!; [done| |].
    + by rewrite lookup_insert_eq.
    + intros n Hn. by rewrite lookup_insert_ne.
Qed.

(** X14.  [upgrade] adds a missing ['category'] index but never a missing
    ['uploadDate'] index: on an older database whose store ['apps'] lacks
    it, [getAllApps] fails with [NotFoundError] on every call, although the
    database opens, the records are kept and [getAppsByCategory]
    works. *)
Theorem missing_uploadDate_index_is_not_repaired db st :
  db_version db < dbVersion → db_stores db !! "apps" = Some st →
  store_indexes st !! "uploadDate" = None →
  (getAllApps true (mkWorld None db)).1 = Err NotFoundError ∧
  (∀ e, (getAllApps e (getAllApps true (mkWorld None db)).2).1
        = Err NotFoundError) ∧
  (∀ c, ∃ l, (getAppsByCategory true c (mkWorld None db)).1 = Ok l) ∧
  stored (getAllApps true (mkWorld None db)).2 = store_records st.
Proof.
  intros Hv Hst Hix.
  destruct (openDB_older_existing db st Hv Hst) as (st' & Hopen & Hrecs & Hcat & Hother).
  assert (getDB true (mkWorld None db)
          = (Ok (), mkWorld (Some Fulfilled)
                      (mkDatabase dbVersion (<["apps" := st']> (db_stores db)))))
    as Hget.
  { unfold getDB, initDB. simpl. by rewrite Hopen. }
  assert (∀ n q, db_getAllFromIndex "apps" n q
                   (mkDatabase dbVersion (<["apps" := st']> (db_stores db)))
                 = match store_indexes st' !! n with
                   | Some keyPath => Ok (index_getAll keyPath q (store_records st'))
                   | None => Err NotFoundError
                   end) as Hidx.
  { intros n q. unfold db_getAllFromIndex, objectStore. simpl.
    by rewrite lookup_insert_eq. }
  assert (getAllApps true (mkWorld None db)
          = (Err NotFoundError,
             mkWorld (Some Fulfilled)
               (mkDatabase dbVersion (<["apps" := st']> (db_stores db)))))
    as Hall.
  { unfold getAllApps. rewrite Hget, Hidx, Hother, Hix; done. }
  rewrite Hall. simpl. split_and!; [done| | |].
  - intros e. unfold getAllApps, getDB, initDB. simpl.
    by rewrite Hidx, Hother, Hix.
  - intros c. unfold getAppsByCategory. rewrite Hget, Hidx.
    destruct Hcat as [kp ->]. eauto.
  - unfold stored. simpl. by rewrite lookup_insert_eq.
Qed.

Lemma missing_uploadDate_index_is_not_repaired_witness :
  db_version (mkDatabase 4 {[ "apps" := mkStore "id" true ∅ 1 ∅ ]}) < dbVersion ∧
  (getAllApps true
     (mkWorld None (mkDatabase 4 {[ "apps" := mkStore "id" true ∅ 1 ∅ ]}))).1
  = Err NotFoundError.
Proof.
  assert (db_version (mkDatabase 4 {[ "apps" := mkStore "id" true ∅ 1 ∅ ]})
          < dbVersion) as Hv by (vm_compute; reflexivity).
  split; [exact Hv|].
  exact (proj1 (missing_uploadDate_index_is_not_repaired
                  (mkDatabase 4 {[ "apps" := mkStore "id" true ∅ 1 ∅ ]})
                  (mkStore "id" true ∅ 1 ∅) Hv
                  (lookup_singleton_eq "apps" _) (lookup_empty "uploadDate"))).
Defined.

(** * The components *)

(** ** [AppList]: loading and showing *)

Lemma StronglySorted_reverse {A} (R : relation A) (l : list A) :
  StronglySorted R l → StronglySorted (flip R) (reverse l).
Proof.
  induction 1 as [|x l Hl IH Hx]; [constructor|].
  rewrite reverse_cons. apply StronglySorted_app_2; [|done|repeat constructor].
  intros y ? Hy ->%list_elem_of_singleton.
  rewrite elem_of_reverse in Hy. rewrite Forall_forall in Hx. by apply Hx.
Qed.

Lemma loadApps_eq e s w :
  world_ok w →
  AppList.loadApps e s w =
  if AppList.loading s then ([], s, w)
  else if connects e w then
    ([], AppList.mkState (AppList.selectedCategory s)
           (reverse
              (if String.eqb (AppList.selectedCategory s) "All"
               then index_getAll "uploadDate" None (stored w)
               else index_getAll "category"
                      (Some (KStr (AppList.selectedCategory s))) (stored w)))
           (AppList.previewApp s) false None,
     opened w)
  else
    ([ToastError (MessageOf UnknownError)],
     AppList.mkState (AppList.selectedCategory s) (AppList.apps s)
       (AppList.previewApp s) false (Some (MessageOf UnknownError)), w).
Proof.
  intros Hw. unfold AppList.loadApps.
  destruct (AppList.loading s); [done|].
  rewrite (getAllApps_eq _ _ Hw), (getAppsByCategory_eq _ _ _ Hw).
  destruct (String.eqb _ "All"), (connects e w); done.
Qed.

(** X15.  [loadApps] does nothing while a load is under way.  Otherwise
    a failed load raises a toast, keeps the tiles it had and shows the
    error in place of the grid; a successful load changes no record and
    shows the listing reversed: under ['All'] every stored record once,
    latest [uploadDate] first and larger [id] first among equal dates;
    under a category the records of that category, larger [id] first. *)
Theorem loadApps_shows_the_listing_reversed e s w :
  reachable any_app w →
  (AppList.loading s = true → AppList.loadApps e s w = ([], s, w)) ∧
  (AppList.loading s = false → connects e w = false →
     ∃ s', AppList.loadApps e s w
           = ([ToastError (MessageOf UnknownError)], s', w) ∧
       AppList.apps s' = AppList.apps s ∧ AppList.loading s' = false ∧
       AppList.body s' = AppList.BodyError (MessageOf UnknownError)) ∧
  (AppList.loading s = false → connects e w = true →
     ∃ s' w', AppList.loadApps e s w = ([], s', w') ∧
       stored w' = stored w ∧
       AppList.loading s' = false ∧ AppList.error s' = None ∧
       AppList.selectedCategory s' = AppList.selectedCategory s ∧
       AppList.previewApp s' = AppList.previewApp s ∧
       (AppList.selectedCategory s = "All" →
          AppList.apps s' ≡ₚ (map_to_list (stored w)).*2 ∧
          StronglySorted (flip upload_order) (AppList.apps s')) ∧
       (AppList.selectedCategory s ≠ "All" →
          AppList.apps s'
          ≡ₚ filter (λ a, category a = AppList.selectedCategory s)
               (map_to_list (stored w)).*2 ∧
          StronglySorted (flip id_order) (AppList.apps s'))).
Proof.
  intros Hw%reachable_ok. rewrite (loadApps_eq _ _ _ Hw).
  pose proof (λ j v, stored_id _ j v Hw) as Hid.
  split_and!.
  - by intros ->.
  - intros -> ->. eexists. split; [done|]. by split_and!.
  - intros -> ->. eexists _, _. split; [done|]. simpl.
    rewrite (stored_opened _ Hw). split_and!; try done.
    + intros ->. simpl. split.
      * rewrite reverse_Permutation. apply all_by_uploadDate_Permutation.
      * by apply StronglySorted_reverse, all_by_uploadDate_sorted.
    + intros Hsel%String.eqb_neq. rewrite Hsel. split.
      * rewrite reverse_Permutation. apply by_category_Permutation.
      * by apply StronglySorted_reverse, by_category_sorted.
Qed.

Lemma loadApps_shows_the_listing_reversed_witness :
  reachable any_app sample_world ∧
  AppList.loadApps true AppList.initial sample_world
  = ([], AppList.mkState "All"
           [ with_uploadDate "2024-03-10T12:00:02.000Z"
               (sample_app_id 4 "Notes" "Tools");
             with_uploadDate "2024-03-10T12:00:01.500Z"
               (sample_app_id 3 "Go" "Games");
             with_uploadDate "2024-03-10T12:00:00.000Z"
               (sample_app_id 1 "Chess" "Games") ] None false None,
     opened sample_world) ∧
  (AppList.loading AppList.initial = true →
   AppList.loadApps true AppList.initial sample_world
   = ([], AppList.initial, sample_world)).
Proof.
  split; [exact sample_world_reachable_any|].
  split; [vm_compute; reflexivity|].
  exact (proj1 (loadApps_shows_the_listing_reversed true AppList.initial
                  sample_world sample_world_reachable_any)).
Defined.

(** ** [AppList]: deleting and previewing *)

(** X16.  [handleDelete] does nothing for a record without [id] (or with
    [id] 0) and when the user does not confirm.  Otherwise a failed
    [deleteApp] raises an error toast and leaves tiles and records alone;
    a successful one removes exactly the record with that [id] and ends
    with the success toast.  The reload in between leaves no tile with
    the deleted [id]; it is skipped when a load is already under way, and
    then the old tiles stay. *)
Theorem handleDelete_guards_and_removes e confirmed app s w :
  reachable any_app w →
  (AppList.no_id app = true ∨ confirmed = false →
     AppList.handleDelete e confirmed app s w = ([], s, w)) ∧
  (∀ k, id app = Some k → k ≠ 0 → confirmed = true →
     (connects e w = false →
        AppList.handleDelete e confirmed app s w
        = ([ToastError (MessageOf UnknownError)], s, w)) ∧
     (connects e w = true →
        ∃ toasts s' w',
          AppList.handleDelete e confirmed app s w
          = (toasts ++ [ToastSuccess "App deleted successfully"], s', w') ∧
          stored w' = delete k (stored w) ∧
          (AppList.loading s = true → s' = s) ∧
          (AppList.loading s = false →
             toasts = [] ∧ AppList.error s' = None ∧
             ∀ a, a ∈ AppList.apps s' → id a ≠ Some k ∧ a ∈ (map_to_list (stored w)).*2))).
Proof.
  intros Hw%reachable_ok. unfold AppList.handleDelete, AppList.no_id. split.
  - intros [Hno | ->]; destruct (id app) as [k|]; try done.
    + by rewrite Hno.
    + destruct (bool_decide (k = 0)); done.
  - intros k -> Hk ->. rewrite bool_decide_eq_false_2 by done. simpl.
    rewrite (deleteApp_eq _ _ _ Hw). split; intros He; rewrite He; [done|].
    set (w1 := with_store (store_delete k (the_store w))).
    assert (world_ok w1) as Hw1
      by (apply with_store_ok, store_delete_ok; by apply world_ok_the_store).
    assert (stored w1 = delete k (stored w)) as Hs1.
    { unfold w1. rewrite stored_with_store. simpl.
      by destruct (world_ok_the_store w Hw) as (_ & -> & _). }
    pose proof (λ j v, stored_id _ j v Hw1) as Hid1.
    assert (connects e w1 = true) as Hc1 by done.
    rewrite (loadApps_eq _ _ _ Hw1), Hc1.
    destruct (AppList.loading s) eqn:Hl.
    + exists [], s, w1. split_and!; try done.
    + eexists [], _, _. split; [done|].
      rewrite (stored_opened _ Hw1). split_and!; try done.
      intros _. split_and!; try done. simpl. intros a Ha.
      rewrite elem_of_reverse in Ha.
      assert (∃ j, stored w1 !! j = Some a) as [j Hj].
      { destruct (String.eqb _ "All").
        - by apply elem_of_all_by_uploadDate.
        - rewrite by_category_Permutation in Ha.
          apply list_elem_of_filter in Ha as [_ Ha].
          apply list_elem_of_fmap in Ha as [[j v] [-> Hv%elem_of_map_to_list]].
          eauto. }
      rewrite (Hid1 _ _ Hj). rewrite Hs1 in Hj.
      apply lookup_delete_Some in Hj as [Hne Hj]. split; [congruence|].
      apply list_elem_of_fmap. exists (j, a). split; [done|].
      by apply elem_of_map_to_list.
Qed.

Lemma handleDelete_guards_and_removes_witness :
  reachable any_app sample_world ∧
  ∃ s' w',
    AppList.handleDelete true true
      (with_uploadDate "2024-03-10T12:00:00.000Z"
         (sample_app_id 1 "Chess" "Games"))
      AppList.initial sample_world
    = ([ToastSuccess "App deleted successfully"], s', w') ∧
    stored w' = delete 1 (stored sample_world) ∧
    AppList.error s' = None ∧
    AppList.apps s'
    = [ with_uploadDate "2024-03-10T12:00:02.000Z"
          (sample_app_id 4 "Notes" "Tools");
        with_uploadDate "2024-03-10T12:00:01.500Z"
          (sample_app_id 3 "Go" "Games") ] ∧
    ∀ a, a ∈ AppList.apps s' → id a ≠ Some 1.
Proof.
  split; [exact sample_world_reachable_any|].
  destruct (handleDelete_guards_and_removes true true
              (with_uploadDate "2024-03-10T12:00:00.000Z"
                 (sample_app_id 1 "Chess" "Games"))
              AppList.initial sample_world sample_world_reachable_any)
    as [_ Hdel].
  destruct (Hdel 1 eq_refl ltac:(discriminate) eq_refl) as [_ Hok].
  destruct (Hok eq_refl) as (toasts & s' & w' & Heq & Hst & _ & Hload).
  destruct (Hload eq_refl) as (-> & Herr & Htiles).
  exists s', w'. split; [exact Heq|]. split; [exact Hst|].
  split; [exact Herr|]. split.
  - assert (AppList.handleDelete true true
              (with_uploadDate "2024-03-10T12:00:00.000Z"
                 (sample_app_id 1 "Chess" "Games"))
              AppList.initial sample_world
            = ([ToastSuccess "App deleted successfully"],
               AppList.mkState "All"
                 [ with_uploadDate "2024-03-10T12:00:02.000Z"
                     (sample_app_id 4 "Notes" "Tools");
                   with_uploadDate "2024-03-10T12:00:01.500Z"
                     (sample_app_id 3 "Go" "Games") ] None false None,
               (AppList.handleDelete true true
                  (with_uploadDate "2024-03-10T12:00:00.000Z"
                     (sample_app_id 1 "Chess" "Games"))
                  AppList.initial sample_world).2)) as Hrun
      by (vm_compute; reflexivity).
    rewrite Heq in Hrun.
    exact (f_equal (λ t, AppList.apps t.1.2) Hrun).
  - intros a Ha. exact (proj1 (Htiles a Ha)).
Defined.

(** X17.  With no preview open, [handlePreview] opens one exactly for
    ['text/html'], ['audio/...'] and ['video/...'] records and is a no-op
    for every other type.  The component on screen is [HTMLPreview] for
    ['text/html'], the audio player for ['audio/...'] and the video player
    for ['video/...'], and the tile's icon agrees with the player. *)
Theorem preview_shows_the_matching_player app s :
  AppList.previewApp s = None →
  match preview (AppList.handlePreview app s) with
  | None =>
      fileType app ≠ "text/html" ∧
      startsWith (fileType app) "audio/" = false ∧
      startsWith (fileType app) "video/" = false ∧
      AppList.handlePreview app s = s
  | Some (HTMLPreview a) => a = app ∧ fileType app = "text/html"
  | Some (AudioPlayer a) =>
      a = app ∧ startsWith (fileType app) "audio/" = true ∧
      AppList.getFileTypeIcon (fileType app) = AppList.MusicalNoteIcon
  | Some (VideoPlayer a) =>
      a = app ∧ startsWith (fileType app) "video/" = true ∧
      AppList.getFileTypeIcon (fileType app) = AppList.VideoCameraIcon
  end.
Proof.
  intros Hnone. unfold AppList.handlePreview, AppList.canPreview, preview,
    MediaPreview, AppList.getFileTypeIcon.
  destruct (String.eqb (fileType app) "text/html") eqn:Hhtml; simpl.
  - rewrite Hhtml. by apply String.eqb_eq in Hhtml.
  - apply String.eqb_neq in Hhtml.
    destruct (startsWith (fileType app) "audio/") eqn:Haudio; simpl.
    + apply String.eqb_neq in Hhtml. by rewrite Hhtml, Haudio.
    + destruct (startsWith (fileType app) "video/") eqn:Hvideo; simpl.
      * apply String.eqb_neq in Hhtml. by rewrite Hhtml, Haudio.
      * by rewrite Hnone.
Qed.

Lemma preview_shows_the_matching_player_witness :
  AppList.previewApp AppList.initial = None ∧
  sample_song = sample_song ∧
  startsWith (fileType sample_song) "audio/" = true ∧
  AppList.getFileTypeIcon (fileType sample_song) = AppList.MusicalNoteIcon.
Proof.
  split; [reflexivity|].
  exact (preview_shows_the_matching_player sample_song AppList.initial eq_refl).
Defined.

(** ** [AppUpload] *)

Lemma progressTick_iter n :
  Nat.iter n AppUpload.progressTick 0 = Z.min (10 * Z.of_nat n) 90.
Proof.
  induction n as [|n IH]; [done|].
  rewrite Nat.iter_succ, IH. unfold AppUpload.progressTick.
  case_decide; lia.
Qed.

Lemma record_from_form now userId f s :
  AppUpload.category s ∈ CATEGORIES →
  (∀ i, AppUpload.icon s = Some i → startsWith (file_type i) "image/" = true) →
  from_form userId (AppUpload.record now userId f s).
Proof.
  intros Hcat Hicon. unfold from_form, AppUpload.record. simpl.
  split_and!; try done.
  - by destruct (AppUpload.icon s).
  - intros i. destruct (AppUpload.icon s) as [i'|]; simpl; [|done].
    intros [= <-]. by apply Hicon.
Qed.

(** X18.  [handleSubmit] without a file only raises a toast.  With a
    file its outcome is that of [addApp].  When [addApp] succeeds, the
    store has gained exactly one record under the next generated [id],
    built from the form's fields with the file's own type and byte count
    and stamped with the store's clock reading, not the form's; the form
    is back in its initial state.  When [addApp] is rejected, as it is
    whenever the database cannot be opened or the key generator is
    exhausted, nothing is stored, the toast names the error, the form
    keeps its fields, [loading] is false and the progress shown is the
    ten-per-tick count capped at 90. *)
Theorem handleSubmit_stores_the_form e nowForm nowStore userId ticks s w :
  reachable any_app w →
  (AppUpload.file s = None →
     AppUpload.handleSubmit e nowForm nowStore userId ticks s w
     = ([ToastError (Text "Please select a file to upload")], s, w)) ∧
  (∀ f, AppUpload.file s = Some f →
     (∀ k w', addApp e nowStore (AppUpload.record nowForm userId f s) w
              = (Ok k, w') →
        AppUpload.handleSubmit e nowForm nowStore userId ticks s w
        = ([ToastSuccess "App uploaded successfully!"],
           AppUpload.initial, w') ∧
        k = keygen w ∧ stored w !! k = None ∧
        ∃ r, stored w' = <[k := r]> (stored w) ∧
          id r = Some k ∧ uploadDate r = nowStore ∧
          name r = AppUpload.appName s ∧
          description r = AppUpload.description s ∧
          category r = AppUpload.category s ∧ ownerId r = userId ∧
          file r = file_blob f ∧ fileName r = file_name f ∧
          fileType r = blob_type (file r) ∧
          fileSize r = Z.of_nat (length (blob_bytes (file r))) ∧
          icon r = file_blob <$> AppUpload.icon s ∧
          iconType r = blob_type <$> icon r) ∧
     (∀ x w', addApp e nowStore (AppUpload.record nowForm userId f s) w
              = (Err x, w') →
        AppUpload.handleSubmit e nowForm nowStore userId ticks s w
        = ([ToastError (Prefixed "Upload failed: " x)],
           AppUpload.setLoading false
             (AppUpload.setUploadProgress
                (Z.min (10 * Z.of_nat ticks) 90) s), w') ∧
        stored w' = stored w) ∧
     (connects e w = false ∨ MAX_GENERATED < keygen w →
        ∃ x w', addApp e nowStore (AppUpload.record nowForm userId f s) w
                = (Err x, w'))).
Proof.
  intros Hw%reachable_ok. unfold AppUpload.handleSubmit. split.
  - by intros ->.
  - intros f ->. split_and!.
    + intros k w' Hadd. rewrite Hadd.
      destruct (addApp_Ok _ _ _ _ _ _ Hw Hadd)
        as (_ & _ & Hnone & Hrecs & _ & Hk).
      simpl in Hk. destruct Hk as [-> _].
      split; [done|]. split; [done|]. split; [done|].
      eexists. split; [exact Hrecs|].
      split_and!; try done. simpl. by destruct (AppUpload.icon s).
    + intros x w' Hadd. rewrite Hadd, progressTick_iter. split; [done|].
      by apply (addApp_Err _ _ _ _ _ _ Hw Hadd).
    + intros Hfail.
      destruct (addApp e nowStore (AppUpload.record nowForm userId f s) w)
        as [[k|x] w'] eqn:Hadd; [|by eauto].
      destruct (addApp_Ok _ _ _ _ _ _ Hw Hadd) as (Hw' & _ & _ & _ & _ & Hk).
      simpl in Hk. destruct Hk as [-> Hnext].
      pose proof (world_ok_keygen _ Hw').
      destruct Hfail as [He|Hmax]; [|lia].
      revert Hadd. rewrite (addApp_eq _ _ _ _ Hw), He. done.
Qed.

Lemma handleSubmit_stores_the_form_witness :
  reachable any_app sample_world ∧
  ∃ w' r,
    AppUpload.handleSubmit true "2024-03-10T11:59:59.000Z"
      "2024-03-10T12:30:00.000Z" "user1" 3 sample_form sample_world
    = ([ToastSuccess "App uploaded successfully!"], AppUpload.initial, w') ∧
    stored sample_world !! 5 = None ∧
    stored w' = <[5 := r]> (stored sample_world) ∧
    id r = Some 5 ∧ uploadDate r = "2024-03-10T12:30:00.000Z" ∧
    name r = "Sample" ∧ category r = "Music" ∧ ownerId r = "user1" ∧
    file r = sample_blob ∧ fileType r = "application/zip" ∧ fileSize r = 4.
Proof.
  split; [exact sample_world_reachable_any|].
  destruct (handleSubmit_stores_the_form true "2024-03-10T11:59:59.000Z"
              "2024-03-10T12:30:00.000Z" "user1" 3 sample_form sample_world
              sample_world_reachable_any) as [_ Hfile].
  destruct (Hfile sample_file eq_refl) as (Hok & _ & _).
  destruct (Hok 5 (addApp true "2024-03-10T12:30:00.000Z"
                     (AppUpload.record "2024-03-10T11:59:59.000Z" "user1"
                        sample_file sample_form) sample_world).2)
    as (Hrun & _ & Hnone & r & Hst & Hid & Hdate & Hname & _ & Hcat & Hown
        & Hfile' & _ & Hty & Hsz & _).
  { vm_compute. reflexivity. }
  eexists _, r. split; [exact Hrun|]. split; [exact Hnone|].
  split; [exact Hst|]. split; [exact Hid|]. split; [exact Hdate|].
  split; [exact Hname|]. split; [exact Hcat|]. split; [exact Hown|].
  split; [exact Hfile'|].
  split; [by rewrite Hty, Hfile'|]. by rewrite Hsz, Hfile'.
Defined.

(** ** The page *)

Lemma loadApps_calls e s w :
  (AppList.loadApps e s w).2 =
  run (if AppList.loading s then []
       else if String.eqb (AppList.selectedCategory s) "All"
       then [(e, CallGetAllApps)]
       else [(e, CallGetAppsByCategory (AppList.selectedCategory s))]) w.
Proof.
  unfold AppList.loadApps. destruct (AppList.loading s); [done|].
  destruct (String.eqb _ _); simpl.
  - by destruct (getAllApps e w) as [[?|?] ?].
  - by destruct (getAppsByCategory e _ w) as [[?|?] ?].
Qed.

Lemma ui_step_world userId ev p :
  world (ui_step userId ev p) = run (ui_calls_step userId ev p) (world p).
Proof.
  destruct ev as [|v|v|v|files|files|files|e nowForm nowStore ticks|e|c|tile|
                  |e confirmed tile|c]; simpl; unfold on_upload, on_list.
  all: try by repeat case_match.
  - (* Submit *)
    destruct (showUpload p); [|done]. unfold AppUpload.handleSubmit.
    destruct (AppUpload.file (uploadForm p)) as [f|]; [|done].
    simpl. by destruct (addApp e nowStore _ (world p)) as [[?|?] ?].
  - (* Load *)
    destruct (showUpload p); [done|]. simpl.
    rewrite <- loadApps_calls.
    by destruct (AppList.loadApps e (appList p) (world p)) as [[? ?] ?].
  - (* ClickDelete *)
    destruct (showUpload p); [done|].
    destruct (AppList.apps (appList p) !! tile) as [app|]; [|done].
    destruct (AppList.canDelete userId app); [|done]. simpl.
    unfold AppList.handleDelete, AppList.no_id.
    destruct (id app) as [k|]; [|done].
    case_bool_decide; [done|]. destruct confirmed; [|done]. simpl.
    destruct (deleteApp e k (world p)) as [[[]|x] w1]; [|done]. simpl.
    rewrite <- loadApps_calls.
    by destruct (AppList.loadApps e (appList p) w1) as [[? ?] ?].
Qed.

Lemma ui_run_world userId evs p :
  world (ui_run userId evs p) = run (ui_calls userId evs p) (world p).
Proof.
  revert p. induction evs as [|ev evs IH]; intros p; [done|].
  simpl. by rewrite IH, run_app, ui_step_world.
Qed.

Lemma handleIconChange_form_ok files s :
  form_ok s → form_ok (AppUpload.handleIconChange files s).2.
Proof.
  intros [Hc Hi]. unfold AppUpload.handleIconChange.
  destruct (head files) as [f|]; [|done].
  destruct (startsWith (file_type f) "image/") eqn:Hf; [|done].
  split; [done|]. simpl. by intros i [= <-].
Qed.

Lemma handleSubmit_form_ok e nowForm nowStore userId ticks s w :
  form_ok s →
  form_ok (AppUpload.handleSubmit e nowForm nowStore userId ticks s w).1.2.
Proof.
  intros Hs. unfold AppUpload.handleSubmit.
  destruct (AppUpload.file s) as [f|]; [|done].
  destruct (addApp _ _ _ _) as [[?|?] ?]; simpl; [|done].
  split; [compute_done|done].
Qed.

Lemma ui_step_form_ok userId ev p :
  form_ok (uploadForm p) → form_ok (uploadForm (ui_step userId ev p)).
Proof.
  intros Hp.
  assert (form_ok AppUpload.initial) as Hinit by (split; [compute_done|done]).
  destruct ev as [|v|v|v|files|files|files|e nowForm nowStore ticks|e|c|tile|
                  |e confirmed tile|c]; simpl; unfold on_upload, on_list.
  all: try by repeat case_match.
  - case_bool_decide; [|done]. destruct (showUpload p); [|done].
    destruct Hp. by split.
  - destruct (showUpload p); [|done]. unfold AppUpload.handleDrop.
    by destruct (head files).
  - destruct (showUpload p); [|done]. by apply handleIconChange_form_ok.
  - destruct (showUpload p); [|done].
    pose proof (handleSubmit_form_ok e nowForm nowStore userId ticks
                  (uploadForm p) (world p) Hp) as H.
    by destruct (AppUpload.handleSubmit _ _ _ _ _ _ _) as [[? ?] ?].
Qed.

Lemma ui_calls_step_admits userId ev p :
  form_ok (uploadForm p) →
  Forall (λ ec, admits (from_form userId) ec.2) (ui_calls_step userId ev p).
Proof.
  intros [Hc Hi].
  destruct ev as [|v|v|v|files|files|files|e nowForm nowStore ticks|e|c|tile|
                  |e confirmed tile|c]; simpl; try by constructor.
  - destruct (showUpload p); [|by constructor].
    destruct (AppUpload.file (uploadForm p)) as [f|]; [|by constructor].
    constructor; [|by constructor]. simpl. by apply record_from_form.
  - repeat case_match; by repeat constructor.
  - repeat case_match; by repeat constructor.
  - case_bool_decide; [by constructor|].
    constructor; [|by constructor]. by destruct c.
Qed.

Lemma ui_calls_admits userId evs p :
  form_ok (uploadForm p) →
  Forall (λ ec, admits (from_form userId) ec.2) (ui_calls userId evs p).
Proof.
  revert p. induction evs as [|ev evs IH]; intros p Hp; [by constructor|].
  simpl. apply Forall_app. split.
  - by apply ui_calls_step_admits.
  - by apply IH, ui_step_form_ok.
Qed.

Lemma reachable_generated_keys P w k v :
  (∀ a, P a → id a = None) →
  reachable P w → stored w !! k = Some v → 1 ≤ k ≤ MAX_GENERATED.
Proof.
  intros HP Hw. revert k v.
  induction Hw as [|e c w Hw IH Hc]; intros k v; [done|].
  pose proof (reachable_ok _ _ Hw) as Hok.
  rewrite (stored_exec _ _ _ Hok).
  destruct c as [now app| |cat|j| | |]; simpl in Hc; eauto.
  - destruct (addApp e now app w) as [[k'|x] w'] eqn:Hadd; simpl; [|eauto].
    destruct (addApp_Ok _ _ _ _ _ _ Hok Hadd) as (Hok' & _ & _ & _ & _ & Hk).
    rewrite (HP _ Hc) in Hk. destruct Hk as [-> Hnext].
    destruct (decide (k = keygen w)) as [->|Hne].
    + intros _. pose proof (world_ok_keygen _ Hok).
      pose proof (world_ok_keygen _ Hok'). lia.
    + rewrite lookup_insert_ne by done. eauto.
  - destruct (deleteApp e j w).1; [|eauto].
    intros [_ ?]%lookup_delete_Some. eauto.
Qed.

(** X19.  Whatever the user does on the page, the database ends up as if
    the store calls the events issue had been run in order, and every
    stored record is one the form built: its [id] is its key, a generated
    one between 1 and 2^53; its [category] is one of the six; [ownerId] is
    the user's; [fileType] and [fileSize] are those of the stored blob;
    an icon, if any, has an image type, which [iconType] records.
    ([getUserId] is taken to return the same value throughout.) *)
Theorem page_stores_only_form_records userId evs w0 :
  reachable (from_form userId) w0 →
  world (ui_run userId evs (initial_page w0))
  = run (ui_calls userId evs (initial_page w0)) w0 ∧
  reachable (from_form userId) (world (ui_run userId evs (initial_page w0))) ∧
  ∀ k r, stored (world (ui_run userId evs (initial_page w0))) !! k = Some r →
    id r = Some k ∧ 1 ≤ k ≤ MAX_GENERATED ∧
    category r ∈ CATEGORIES ∧ ownerId r = userId ∧
    fileType r = blob_type (file r) ∧
    fileSize r = Z.of_nat (length (blob_bytes (file r))) ∧
    iconType r = blob_type <$> icon r ∧
    ∀ i, icon r = Some i → startsWith (blob_type i) "image/" = true.
Proof.
  intros Hw0.
  assert (form_ok (uploadForm (initial_page w0))) as Hform
    by (split; [compute_done|done]).
  pose proof (ui_run_world userId evs (initial_page w0)) as Hrun.
  simpl in Hrun. split; [done|].
  assert (reachable (from_form userId)
            (world (ui_run userId evs (initial_page w0)))) as Hw.
  { rewrite Hrun. apply reachable_run; [done|]. by apply ui_calls_admits. }
  split; [done|]. intros k r Hr.
  destruct (reachable_stored _ _ _ _ Hw Hr)
    as (now & app & (Hid & Hcat & Hown & Hty & Hsz & Hity & Hicon) & ->).
  split; [done|]. split.
  { apply (reachable_generated_keys _ _ _ _ (λ a H, proj1 H) Hw Hr). }
  done.
Qed.

Lemma page_stores_only_form_records_witness :
  reachable (from_form "user1") initial_world ∧
  ∃ r, stored (world (ui_run "user1" sample_session
                        (initial_page initial_world))) !! 1 = Some r ∧
       name r = "Sample" ∧ category r ∈ CATEGORIES ∧ ownerId r = "user1" ∧
       fileSize r = 4.
Proof.
  split; [constructor|].
  destruct (page_stores_only_form_records "user1" sample_session initial_world
              (reachable_initial _)) as (_ & _ & H).
  eexists. split; [vm_compute; reflexivity|].
  split; [reflexivity|].
  match goal with
  | |- category ?r ∈ _ ∧ _ =>
      destruct (H 1 r) as (_ & _ & Hc & Ho & _ & Hs & _);
        [vm_compute; reflexivity|]
  end.
  split; [exact Hc|]. split; [exact Ho|]. exact Hs.
Defined.

Lemma loadApps_tiles e s w t s' w' :
  world_ok w → AppList.loadApps e s w = (t, s', w') →
  world_ok w' ∧ stored w' = stored w ∧
  ∀ a, a ∈ AppList.apps s' → a ∈ AppList.apps s ∨ ∃ j, stored w !! j = Some a.
Proof.
  intros Hw. rewrite (loadApps_eq _ _ _ Hw).
  destruct (AppList.loading s); [intros [= <- <- <-]; auto|].
  destruct (connects e w); intros [= <- <- <-]; [|auto].
  split; [by apply opened_ok|]. split; [by apply stored_opened|].
  simpl. intros a Ha. right. rewrite elem_of_reverse in Ha.
  assert (a ∈ (map_to_list (stored w)).*2) as Hin.
  { destruct (String.eqb _ _).
    - by rewrite <- all_by_uploadDate_Permutation.
    - rewrite by_category_Permutation in Ha.
      by apply list_elem_of_filter in Ha as [_ ?]. }
  apply list_elem_of_fmap in Hin as ([j a'] & -> & Hin).
  exists j. by apply elem_of_map_to_list.
Qed.

Lemma ui_step_ok userId ev p :
  world_ok (world p) → world_ok (world (ui_step userId ev p)).
Proof. intros Hw. rewrite ui_step_world. by apply keygen_run. Qed.

Lemma ui_step_keeps userId ev p k v :
  world_ok (world p) → ownerId v ≠ userId →
  stored (world p) !! k = Some v →
  (∀ a, a ∈ AppList.apps (appList p) → id a = Some k → a = v) →
  stored (world (ui_step userId ev p)) !! k = Some v ∧
  ∀ a, a ∈ AppList.apps (appList (ui_step userId ev p)) →
       id a = Some k → a = v.
Proof.
  intros Hw Hown Hk Htiles.
  assert (∀ e s w1 t s' w', world_ok w1 → stored w1 !! k = Some v →
            (∀ a, a ∈ AppList.apps s → id a = Some k → a = v) →
            AppList.loadApps e s w1 = (t, s', w') →
            stored w' !! k = Some v ∧
            ∀ a, a ∈ AppList.apps s' → id a = Some k → a = v) as Hload.
  { intros e s w1 t s' w' Hw1 Hk1 Hs Hl.
    destruct (loadApps_tiles _ _ _ _ _ _ Hw1 Hl) as (_ & -> & Hin).
    split; [done|]. intros a [Ha|[j Ha]]%Hin Hid; [by apply Hs|].
    rewrite (stored_id _ _ _ Hw1 Ha) in Hid. simplify_eq. congruence. }
  destruct ev as [|x|x|x|files|files|files|e nowForm nowStore ticks|e|c|tile|
                  |e confirmed tile|c]; simpl; unfold on_upload, on_list.
  - split; [done|]. simpl. by intros a ?%elem_of_nil.
  - by destruct (showUpload p).
  - by destruct (showUpload p).
  - case_bool_decide; [|done]. by destruct (showUpload p).
  - by destruct (showUpload p).
  - by destruct (showUpload p).
  - by destruct (showUpload p).
  - (* Submit *)
    destruct (showUpload p); [|done]. unfold AppUpload.handleSubmit.
    destruct (AppUpload.file (uploadForm p)) as [f|]; [|done].
    destruct (addApp e nowStore _ (world p)) as [[j|y] w'] eqn:Hadd; simpl.
    + destruct (addApp_Ok _ _ _ _ _ _ Hw Hadd) as (_ & _ & Hnone & -> & _).
      split; [|done]. rewrite lookup_insert_ne; [done|]. congruence.
    + destruct (addApp_Err _ _ _ _ _ _ Hw Hadd) as [-> _]. done.
  - (* Load *)
    destruct (showUpload p); [done|].
    destruct (AppList.loadApps e (appList p) (world p)) as [[t s'] w'] eqn:Hl.
    simpl. by apply (Hload _ _ _ _ _ _ Hw Hk Htiles Hl).
  - by destruct (showUpload p).
  - destruct (_ !! tile); [|done]. destruct (showUpload p); [done|].
    unfold AppList.handlePreview. by destruct (AppList.canPreview _).
  - by destruct (showUpload p).
  - (* ClickDelete *)
    destruct (showUpload p); [done|].
    destruct (AppList.apps (appList p) !! tile) as [app|] eqn:Htile; [|done].
    unfold AppList.canDelete. case_bool_decide as Happ; [|done].
    unfold AppList.handleDelete.
    destruct (id app) as [j|] eqn:Hid; [|done].
    case_bool_decide; [done|]. destruct confirmed; [|done]. simpl.
    assert (j ≠ k) as Hjk.
    { intros ->. apply Hown. rewrite <- Happ. f_equal. symmetry.
      apply Htiles; [|done]. by eapply list_elem_of_lookup_2. }
    destruct (deleteApp e j (world p)) as [[[]|y] w1] eqn:Hdel.
    + destruct (deleteApp_Ok _ _ _ _ Hw Hdel) as (Hw1 & _ & Hs1 & _).
      assert (stored w1 !! k = Some v) as Hk1.
      { rewrite Hs1. by rewrite lookup_delete_ne. }
      destruct (AppList.loadApps e (appList p) w1) as [[t s'] w'] eqn:Hl.
      simpl. by apply (Hload _ _ _ _ _ _ Hw1 Hk1 Htiles Hl).
    + simpl. revert Hdel. rewrite (deleteApp_eq _ _ _ Hw).
      destruct (connects e (world p)); [done|]. by intros [= _ <-].
  - (* Engine *)
    case_bool_decide as Hc; [done|]. simpl. split; [|done].
    rewrite (stored_exec _ _ _ Hw). by destruct c.
Qed.

(** X20.  The page never removes or alters a record of another owner:
    whatever the user does, a record whose [ownerId] is not the user's is
    still stored under its [id], unchanged.  ([deleteApp] itself checks no
    owner; the tile's delete button does.) *)
Theorem page_keeps_other_owners_records userId evs w0 k v :
  reachable any_app w0 → stored w0 !! k = Some v → ownerId v ≠ userId →
  stored (world (ui_run userId evs (initial_page w0))) !! k = Some v.
Proof.
  intros Hw0%reachable_ok Hk Hown.
  cut (∀ p, world_ok (world p) → stored (world p) !! k = Some v →
            (∀ a, a ∈ AppList.apps (appList p) → id a = Some k → a = v) →
            stored (world (ui_run userId evs p)) !! k = Some v).
  { intros Hcut. apply Hcut; [done|done|]. simpl. by intros a ?%elem_of_nil. }
  induction evs as [|ev evs IH]; intros p Hw Hp Htiles; [done|].
  simpl. destruct (ui_step_keeps userId ev p k v Hw Hown Hp Htiles).
  apply IH; [by apply ui_step_ok|done|done].
Qed.

Lemma page_keeps_other_owners_records_witness :
  reachable any_app sample_world ∧
  stored sample_world !! 1
  = Some (with_id 1 (with_uploadDate "2024-03-10T12:00:00.000Z"
                       (sample_app "Chess" "Games"))) ∧
  "user1" ≠ "user2" ∧
  stored (world (ui_run "user2" [Load true; ClickDelete true true 0;
                                 ClickDelete true true 2]
                   (initial_page sample_world))) !! 1
  = Some (with_id 1 (with_uploadDate "2024-03-10T12:00:00.000Z"
                       (sample_app "Chess" "Games"))).
Proof.
  split; [apply sample_world_reachable_any|].
  split; [vm_compute; reflexivity|]. split; [discriminate|].
  apply page_keeps_other_owners_records.
  - apply sample_world_reachable_any.
  - vm_compute; reflexivity.
  - discriminate.
Defined.

Lemma all_by_uploadDate_insert_last (m : gmap Z App) k r :
  (∀ j v, m !! j = Some v → id v = Some j) → id r = Some k →
  (∀ j v, m !! j = Some v → j < k ∧ String.le (uploadDate v) (uploadDate r)) →
  index_getAll "uploadDate" None (<[k := r]> m)
  = index_getAll "uploadDate" None m ++ [r].
Proof.
  intros Hid Hr Hlt.
  assert (m !! k = None) as Hnone.
  { destruct (m !! k) as [v|] eqn:Hv; [|done]. apply Hlt in Hv. lia. }
  assert (∀ j v, <[k := r]> m !! j = Some v → id v = Some j) as Hid'.
  { intros j v [[<- <-]|[_ ?]]%lookup_insert_Some; eauto. }
  assert (index_getAll "uploadDate" None (<[k := r]> m)
          ≡ₚ r :: index_getAll "uploadDate" None m) as Hall.
  { by rewrite !all_by_uploadDate_Permutation, values_insert. }
  apply (StronglySorted_unique_strong upload_order).
  - intros a b Ha Hb. rewrite all_by_uploadDate_Permutation in Ha.
    rewrite <-Permutation_cons_append, <-Hall,
      all_by_uploadDate_Permutation in Hb.
    by apply (upload_order_antisymm _ _ _ Hid').
  - by apply all_by_uploadDate_sorted.
  - apply StronglySorted_app_2;
      [|by apply all_by_uploadDate_sorted|repeat constructor].
    intros a ? Ha ->%list_elem_of_singleton.
    apply elem_of_all_by_uploadDate in Ha as [i Ha].
    destruct (Hlt i a Ha) as [Hik Hle]. split; [done|].
    intros _. exists i, k. split_and!; [by apply Hid | done | lia].
  - rewrite Hall. apply Permutation_cons_append.
Qed.

(** X21.  A successful upload is shown first: when no stored record is
    stamped later than the store's clock reading, then after [Submit],
    switching back to the list and loading, the grid shows the new record
    on the first tile, followed by the earlier listing reversed. *)
Theorem uploaded_record_is_shown_first userId e e' nowForm nowStore ticks p f :
  reachable any_app (world p) → showUpload p = true →
  AppUpload.file (uploadForm p) = Some f →
  connects e (world p) = true → keygen (world p) ≤ MAX_GENERATED →
  (∀ k a, stored (world p) !! k = Some a →
          String.le (uploadDate a) nowStore) →
  ∃ r old,
    (getAllApps true (world p)).1 = Ok old ∧
    AppList.body
      (appList (ui_run userId [Submit e nowForm nowStore ticks;
                               ToggleUpload; Load e'] p))
    = AppList.BodyGrid (r :: reverse old) ∧
    id r = Some (keygen (world p)) ∧
    name r = AppUpload.appName (uploadForm p) ∧
    uploadDate r = nowStore ∧ file r = file_blob f.
Proof.
  destruct p as [sh s l w]. simpl.
  intros Hw%reachable_ok -> Hf He Hmax Hdates.
  destruct (addApp_generates nowStore
              (AppUpload.record nowForm userId f s) w Hw eq_refl Hmax)
    as [w' Hadd].
  assert (addApp e nowStore (AppUpload.record nowForm userId f s) w
          = (Ok (keygen w), w')) as Hadd'.
  { revert Hadd. rewrite !(addApp_eq _ _ _ _ Hw), He.
    by rewrite (world_ok_connects _ Hw). }
  destruct (addApp_Ok _ _ _ _ _ _ Hw Hadd') as (Hw' & Hp & Hnone & Hrecs & _).
  set (r := with_id (keygen w)
              (with_uploadDate nowStore (AppUpload.record nowForm userId f s)))
    in *.
  exists r, (index_getAll "uploadDate" None (stored w)).
  split.
  { by rewrite (getAllApps_eq _ _ Hw), (world_ok_connects _ Hw). }
  split; [|done].
  unfold AppUpload.handleSubmit. rewrite Hf, Hadd'. simpl.
  rewrite (loadApps_eq _ _ _ Hw'). simpl.
  assert (connects e' w' = true) as -> by (unfold connects; by rewrite Hp).
  simpl. rewrite Hrecs.
  rewrite (all_by_uploadDate_insert_last _ _ r).
  - rewrite reverse_app. done.
  - intros j v. by apply stored_id.
  - done.
  - intros j v Hv. split.
    + by apply (generated_key_above _ _ _ _ _ _ Hw Hadd' eq_refl j v).
    + by apply (Hdates j v).
Qed.

Lemma uploaded_record_is_shown_first_witness :
  reachable any_app sample_world ∧
  map_Forall (λ _ a, String.le (uploadDate a) "2024-03-10T12:30:00.000Z")
    (stored sample_world) ∧
  ∃ r,
    AppList.body
      (appList (ui_run "user1" [Submit true "2024-03-10T11:59:59.000Z"
                                  "2024-03-10T12:30:00.000Z" 3;
                                ToggleUpload; Load true]
                  (mkPage true sample_form AppList.initial sample_world)))
    = AppList.BodyGrid
        [ r;
          with_uploadDate "2024-03-10T12:00:02.000Z"
            (sample_app_id 4 "Notes" "Tools");
          with_uploadDate "2024-03-10T12:00:01.500Z"
            (sample_app_id 3 "Go" "Games");
          with_uploadDate "2024-03-10T12:00:00.000Z"
            (sample_app_id 1 "Chess" "Games") ] ∧
    id r = Some 5 ∧ name r = "Sample" ∧
    uploadDate r = "2024-03-10T12:30:00.000Z".
Proof.
  assert (map_Forall
            (λ _ a, String.le (uploadDate a) "2024-03-10T12:30:00.000Z")
            (stored sample_world)) as Hdates
    by (apply (bool_decide_unpack _); vm_compute; reflexivity).
  split; [exact sample_world_reachable_any|]. split; [exact Hdates|].
  destruct (uploaded_record_is_shown_first "user1" true true
              "2024-03-10T11:59:59.000Z" "2024-03-10T12:30:00.000Z" 3
              (mkPage true sample_form AppList.initial sample_world)
              sample_file)
    as (r & old & Hold & Hbody & Hid & Hname & Hdate & _).
  - exact sample_world_reachable_any.
  - reflexivity.
  - reflexivity.
  - reflexivity.
  - vm_compute; discriminate.
  - intros k a Hk. exact (Hdates k a Hk).
  - assert ((getAllApps true sample_world).1
            = Ok [ with_uploadDate "2024-03-10T12:00:00.000Z"
                     (sample_app_id 1 "Chess" "Games");
                   with_uploadDate "2024-03-10T12:00:01.500Z"
                     (sample_app_id 3 "Go" "Games");
                   with_uploadDate "2024-03-10T12:00:02.000Z"
                     (sample_app_id 4 "Notes" "Tools") ]) as Hall
      by (vm_compute; reflexivity).
    simpl in Hold. rewrite Hall in Hold. injection Hold as <-.
    exists r. split; [exact Hbody|]. split; [exact Hid|].
    split; [exact Hname|exact Hdate].
Defined.
